(** * jsdiff-html: a shallow embedding of the HTML / text differ

    The repository holds three scripts: [combined.js] (one tagged list of
    differences), [seperated.js] (two lists, structural and textual) and
    [preview.js] (the combined differ followed by a renderer).  They share
    the same tree co-traversal.  The two libraries they call, the [parse5]
    parser and the [diff] package's [diffChars], are not part of the
    repository: they enter the development as section variables. *)

From Stdlib Require Import List NArith Bool Arith Lia String Ascii.
From Stdlib Require Import Permutation DecimalNat.
Import ListNotations.

Set Implicit Arguments.
Set Warnings "-register-all".

(** ** JavaScript strings and values *)

(** A JavaScript string is a sequence of UTF-16 code units. *)
Definition jsstring := list N.

(** Literals: every character of a Rocq string is one code unit. *)
Definition js (s : string) : jsstring :=
  List.map N_of_ascii (list_ascii_of_string s).

Fixpoint str_eqb (a b : jsstring) : bool :=
  match a, b with
  | [], [] => true
  | x :: a', y :: b' => N.eqb x y && str_eqb a' b'
  | _, _ => false
  end.

(** The code unit of the double quote, which a literal cannot hold. *)
Definition dquote : jsstring := [34%N].

(** [String(i)] for a loop index. *)
Fixpoint digits (u : Decimal.uint) : jsstring :=
  match u with
  | Decimal.Nil => []
  | Decimal.D0 u' => 48%N :: digits u'
  | Decimal.D1 u' => 49%N :: digits u'
  | Decimal.D2 u' => 50%N :: digits u'
  | Decimal.D3 u' => 51%N :: digits u'
  | Decimal.D4 u' => 52%N :: digits u'
  | Decimal.D5 u' => 53%N :: digits u'
  | Decimal.D6 u' => 54%N :: digits u'
  | Decimal.D7 u' => 55%N :: digits u'
  | Decimal.D8 u' => 56%N :: digits u'
  | Decimal.D9 u' => 57%N :: digits u'
  end.

Definition String_of_index (i : nat) : jsstring := digits (Nat.to_uint i).

(** The values an entry point can be handed: a string, or one of the two
    absent values. *)
Inductive jsvalue : Type :=
| VUndefined
| VNull
| VString (s : jsstring).

(** [===] on these values. *)
Definition strict_eq (a b : jsvalue) : bool :=
  match a, b with
  | VUndefined, VUndefined => true
  | VNull, VNull => true
  | VString s, VString t => str_eqb s t
  | _, _ => false
  end.

(** [ToString], as applied by [RegExp.prototype.test] and by template
    literals. *)
Definition ToString (v : jsvalue) : jsstring :=
  match v with
  | VUndefined => js "undefined"
  | VNull => js "null"
  | VString s => s
  end.

(** ** Completions: a call returns or throws *)

Inductive exn : Type := TypeError.

Inductive completion (A : Type) : Type :=
| Return (a : A)
| Throw (e : exn).

Arguments Return {A} a.
Arguments Throw {A} e.

Definition bind {A B : Type} (c : completion A) (k : A -> completion B)
  : completion B :=
  match c with
  | Return a => k a
  | Throw e => Throw e
  end.

Definition fmap {A B : Type} (f : A -> B) (c : completion A) : completion B :=
  bind c (fun a => Return (f a)).

Declare Scope js_scope.
Notation "x <- c ;; k" := (bind c (fun x => k))
  (at level 61, c at next level, right associativity) : js_scope.
Open Scope js_scope.

(** [for (let i = 0; i < n; i++) body(i)], threading the state the body
    mutates; a throw leaves the loop. *)
Fixpoint for_from {St : Type} (i n : nat) (body : nat -> St -> completion St)
  (s : St) : completion St :=
  match n with
  | O => Return s
  | S n' => s' <- body i s ;; for_from (S i) n' body s'
  end.

Definition for_loop {St : Type} (n : nat) (body : nat -> St -> completion St)
  (s : St) : completion St :=
  for_from 0 n body s.

(** ** Character classes and the string methods the scripts call *)

Definition LT : N := 60.  (* < *)
Definition GT : N := 62.  (* > *)
Definition AMP : N := 38. (* & *)
Definition APOS : N := 39. (* ' *)
Definition QUOT : N := 34.

(** [\s] of a regular expression and the characters [trim] strips: the
    WhiteSpace and LineTerminator productions. *)
Definition is_space (c : N) : bool :=
  ((9 <=? c) && (c <=? 13) || (c =? 32) || (c =? 160) || (c =? 5760)
   || (8192 <=? c) && (c <=? 8202) || (c =? 8232) || (c =? 8233)
   || (c =? 8239) || (c =? 8287) || (c =? 12288) || (c =? 65279))%N.

(** [[a-z]] under the [i] flag (no [u] flag): the ASCII letters. *)
Definition is_letter (c : N) : bool :=
  ((97 <=? c) && (c <=? 122) || (65 <=? c) && (c <=? 90))%N.

Fixpoint dropWhile {A : Type} (p : A -> bool) (l : list A) : list A :=
  match l with
  | [] => []
  | x :: l' => if p x then dropWhile p l' else l
  end.

(** [String.prototype.trim]. *)
Definition trim (s : jsstring) : jsstring :=
  rev (dropWhile is_space (rev (dropWhile is_space s))).

(** A match of [\s+<] at the head of [s]: the number of code units it
    covers. *)
Fixpoint match_spaces_lt (seen : nat) (s : jsstring) : option nat :=
  match s with
  | [] => None
  | c :: s' =>
      if is_space c then match_spaces_lt (S seen) s'
      else if (c =? LT)%N then
             match seen with O => None | S _ => Some (S seen) end
           else None
  end.

(** [s.replace(/>\s+</g, '><')]: scan left to right; at a match write the
    replacement and resume after the match ([skip] counts the code units of
    the current match still to pass over). *)
Fixpoint replace_gt_spaces_lt (skip : nat) (s : jsstring) : jsstring :=
  match s with
  | [] => []
  | c :: s' =>
      match skip with
      | S k => replace_gt_spaces_lt k s'
      | O =>
          if (c =? GT)%N then
            match match_spaces_lt 0 s' with
            | Some n => GT :: LT :: replace_gt_spaces_lt n s'
            | None => c :: replace_gt_spaces_lt 0 s'
            end
          else c :: replace_gt_spaces_lt 0 s'
      end
  end.

(** [/<[a-z][\s\S]*>/i.test(s)]: some [<] is followed by a letter and,
    anywhere later, by a [>]. *)
Fixpoint htmlRegex_test (s : jsstring) : bool :=
  match s with
  | [] => false
  | c :: s' =>
      ((c =? LT)%N &&
       match s' with
       | l :: s'' => is_letter l && existsb (N.eqb GT) s''
       | [] => false
       end)
      || htmlRegex_test s'
  end.

(** [s.replace(/c/g, r)] for a single character [c]. *)
Definition replace_char (c : N) (r : jsstring) (s : jsstring) : jsstring :=
  flat_map (fun x => if (x =? c)%N then r else [x]) s.

(** [xs.join('')]. *)
Definition join (xs : list jsstring) : jsstring := List.concat xs.

(** ** A [Map]: keys in insertion order, a later [set] of a key already
    present replaces its value in place *)

Module InsertionMap.
Section WithKey.
Variables (K V : Type) (eqb : K -> K -> bool).

Definition t := list (K * V).

Fixpoint set (k : K) (v : V) (m : t) : t :=
  match m with
  | [] => [(k, v)]
  | (k', v') :: m' =>
      if eqb k' k then (k', v) :: m' else (k', v') :: set k v m'
  end.

(** [new Map(entries)]. *)
Definition of_entries (entries : list (K * V)) : t :=
  fold_left (fun m kv => set (fst kv) (snd kv) m) entries [].

Fixpoint get (k : K) (m : t) : option V :=
  match m with
  | [] => None
  | (k', v') :: m' => if eqb k' k then Some v' else get k m'
  end.

Definition has (k : K) (m : t) : bool :=
  match get k m with Some _ => true | None => false end.

Definition keys (m : t) : list K := List.map fst m.
End WithKey.
End InsertionMap.

(** ** The parser's tree (parse5's default tree adapter) *)

Record attr : Type := Attr { name : jsstring; attr_value : jsstring }.

Inductive node : Type :=
| Document (children : list node)
| DocumentFragment (children : list node)
| DocumentType (doctype_name : jsstring)
| Comment (data : jsstring)
| Text (text : jsstring)
| Element (tagName : jsstring) (attributes : list attr) (children : list node).

(** [node.nodeName]. *)
Definition nodeName (n : node) : jsstring :=
  match n with
  | Document _ => js "#document"
  | DocumentFragment _ => js "#document-fragment"
  | DocumentType _ => js "#documentType"
  | Comment _ => js "#comment"
  | Text _ => js "#text"
  | Element t _ _ => t
  end.

(** [node.value]: only a text node has the property. *)
Definition value (n : node) : option jsstring :=
  match n with
  | Text v => Some v
  | _ => None
  end.

(** [node.attrs]: only an element has the property. *)
Definition attrs (n : node) : option (list attr) :=
  match n with
  | Element _ a _ => Some a
  | _ => None
  end.

(** [node.childNodes]. *)
Definition childNodes (n : node) : option (list node) :=
  match n with
  | Document c | DocumentFragment c | Element _ _ c => Some c
  | _ => None
  end.

(** [node.childNodes || []]. *)
Definition childNodes_or_empty (n : node) : list node :=
  match n with
  | Document c | DocumentFragment c | Element _ _ c => c
  | _ => []
  end.

(** [v.trim()] where [v] was read from a property: a method call on
    [undefined] throws. *)
Definition trim_of (v : option jsstring) : completion jsstring :=
  match v with
  | Some s => Return (trim s)
  | None => Throw TypeError
  end.

(** A tree in which [value] is present on every node named [#text], as in
    every tree parse5 builds (a tag name starts with a letter). *)
Fixpoint text_has_value (n : node) : bool :=
  let all := fix all (l : list node) : bool :=
    match l with
    | [] => true
    | c :: l' => text_has_value c && all l'
    end in
  match n with
  | Element t _ c => negb (str_eqb t (js "#text")) && all c
  | Document c | DocumentFragment c => all c
  | _ => true
  end.

(** ** The character differ's segments and the differences reported *)

(** One part of [Diff.diffChars]'s answer. *)
Record part : Type :=
  Part { part_value : jsstring; added : bool; removed : bool }.

Inductive changeType : Type := SegAdded | SegRemoved | SegUnchanged.

(** The string stored in a change's [type]. *)
Definition changeType_string (t : changeType) : jsstring :=
  match t with
  | SegAdded => js "added"
  | SegRemoved => js "removed"
  | SegUnchanged => js "unchanged"
  end.

Record change : Type := Change { type : changeType; content : jsstring }.

(** [part => ({type: part.added ? 'added' : part.removed ? 'removed' :
    'unchanged', content: part.value})]. *)
Definition change_of_part (p : part) : change :=
  Change (if added p then SegAdded else if removed p then SegRemoved
          else SegUnchanged)
         (part_value p).

(** [part => part.added || part.removed]. *)
Definition part_changed (p : part) : bool := added p || removed p.

(** [path ? `${path}/${i}` : String(i)]: the empty string is falsy. *)
Definition childPath (path : jsstring) (i : nat) : jsstring :=
  match path with
  | [] => String_of_index i
  | _ => path ++ js "/" ++ String_of_index i
  end.

Inductive kind : Type := structural | textual.

(** A difference of combined.js and preview.js. *)
Inductive difference : Type :=
| Added (path : jsstring) (n : option node)
| Removed (path : jsstring) (n : option node)
| Changed (path oldTag newTag : jsstring)
| AttributeRemoved (path name oldValue : jsstring)
| AttributeChanged (path name oldValue newValue : jsstring)
| AttributeAdded (path name value : jsstring)
| TextDifference (path : option jsstring) (changes : list change).

(** [difference.kind]. *)
Definition kind_of (d : difference) : kind :=
  match d with
  | TextDifference _ _ => textual
  | _ => structural
  end.

(** [difference.path]; the difference of [compareText] has none. *)
Definition path_of (d : difference) : option jsstring :=
  match d with
  | Added p _ | Removed p _ | Changed p _ _ | AttributeRemoved p _ _
  | AttributeChanged p _ _ _ | AttributeAdded p _ _ => Some p
  | TextDifference p _ => p
  end.

Record DiffResult : Type :=
  Result { changed : bool; differences : list difference }.

Definition unchanged_result : DiffResult := Result false [].

(** ** combined.js *)

Module Combined.
Section Differ.
(** [parse5.parse] and [Diff.diffChars]. *)
Variable parse : jsstring -> node.
Variable diffChars : jsstring -> jsstring -> list part.

(** [Diff.diffChars(a, b)] at a call site whose arguments may be absent:
    the library splits both arguments into characters, a method call
    that throws on [null] and [undefined]. *)
Definition diffChars_call (a b : jsvalue) : completion (list part) :=
  match a, b with
  | VString a, VString b => Return (diffChars a b)
  | _, _ => Throw TypeError
  end.

(** [html.replace(/>\s+</g, '><').trim()]; the method call throws on an
    absent [html]. *)
Definition normalizeHtml (html : jsvalue) : completion jsstring :=
  match html with
  | VString s => Return (trim (replace_gt_spaces_lt 0 s))
  | _ => Throw TypeError
  end.

(** [new Map(node.attrs.map(attr => [attr.name, attr.value]))]. *)
Definition attrMap (a : list attr) : InsertionMap.t jsstring jsstring :=
  InsertionMap.of_entries str_eqb
    (List.map (fun x => (name x, attr_value x)) a).

(** The attribute block of [compareNodes] (lines 76-114), entered when
    both [attrs] are present: the loop over [oldAttrs], then the loop
    over [newAttrs]. *)
Definition compareAttrs (path : jsstring) (oldNode_attrs newNode_attrs : list attr)
  (differences : list difference) : list difference :=
  let oldAttrs := attrMap oldNode_attrs in
  let newAttrs := attrMap newNode_attrs in
  let differences :=
    fold_left
      (fun differences entry =>
         let name := fst entry in
         let oldValue := snd entry in
         match InsertionMap.get str_eqb name newAttrs with
         | None => differences ++ [AttributeRemoved path name oldValue]
         | Some newValue =>
             if negb (str_eqb newValue oldValue)
             then differences ++ [AttributeChanged path name oldValue newValue]
             else differences
         end)
      oldAttrs differences in
  fold_left
    (fun differences entry =>
       let name := fst entry in
       let value := snd entry in
       if negb (InsertionMap.has str_eqb name oldAttrs)
       then differences ++ [AttributeAdded path name value]
       else differences)
    newAttrs differences.

(** The first block of [compareNodes] (lines 36-44): one side absent. *)
Definition missing_side (oldNode newNode : option node) (path : jsstring)
  : difference :=
  match oldNode with
  | None => Added path newNode
  | Some _ => Removed path oldNode
  end.

(** The tag block (lines 47-55). *)
Definition compareTags (oldNode newNode : node) (path : jsstring)
  (differences : list difference) : list difference :=
  if negb (str_eqb (nodeName oldNode) (nodeName newNode))
     && negb (str_eqb (nodeName oldNode) (js "#text"))
  then differences ++ [Changed path (nodeName oldNode) (nodeName newNode)]
  else differences.

(** The text block (lines 58-73). *)
Definition compareValues (oldNode newNode : node) (path : jsstring)
  (differences : list difference) : completion (list difference) :=
  if str_eqb (nodeName oldNode) (js "#text")
     && str_eqb (nodeName newNode) (js "#text")
  then
    oldText <- trim_of (value oldNode) ;;
    newText <- trim_of (value newNode) ;;
    if negb (str_eqb oldText newText)
    then
      let charDiffs := diffChars oldText newText in
      Return (differences
              ++ [TextDifference (Some path) (List.map change_of_part charDiffs)])
    else Return differences
  else Return differences.

(** The attribute block with its guard [oldNode.attrs && newNode.attrs]. *)
Definition compareAttrs_if_present (oldNode newNode : node) (path : jsstring)
  (differences : list difference) : list difference :=
  match attrs oldNode, attrs newNode with
  | Some oldNode_attrs, Some newNode_attrs =>
      compareAttrs path oldNode_attrs newNode_attrs differences
  | _, _ => differences
  end.

(** The child loop once the old children are exhausted: every remaining
    index has [oldChildren[i]] undefined. *)
Fixpoint compareRest (path : jsstring) (newChildren : list node) (i : nat)
  (differences : list difference) : list difference :=
  match newChildren with
  | [] => differences
  | n :: rest =>
      compareRest path rest (S i)
        (differences ++ [missing_side None (Some n) (childPath path i)])
  end.

(** The child loop (lines 116-129), over the recursive call [compare] for
    a pair of present nodes.  It walks the two child lists in step, which
    is the loop over [i < maxLength] reading [oldChildren[i]] and
    [newChildren[i]] (lemma [compareChildren_for_loop]). *)
Fixpoint compareChildren
  (compare : node -> node -> list difference -> jsstring
             -> completion (list difference))
  (path : jsstring) (oldChildren newChildren : list node) (i : nat)
  (differences : list difference) {struct oldChildren}
  : completion (list difference) :=
  match oldChildren with
  | [] => Return (compareRest path newChildren i differences)
  | o :: oldRest =>
      match newChildren with
      | [] =>
          compareChildren compare path oldRest [] (S i)
            (differences ++ [missing_side (Some o) None (childPath path i)])
      | n :: newRest =>
          differences <- compare o n differences (childPath path i) ;;
          compareChildren compare path oldRest newRest (S i) differences
      end
  end.

(** [compareNodes] past its first block, both nodes present. *)
Fixpoint compareNodes_present (oldNode newNode : node)
  (differences : list difference) (path : jsstring) {struct oldNode}
  : completion (list difference) :=
  let differences := compareTags oldNode newNode path differences in
  differences <- compareValues oldNode newNode path differences ;;
  let differences := compareAttrs_if_present oldNode newNode path differences in
  let newChildren := childNodes_or_empty newNode in
  match oldNode with
  | Document oldChildren | DocumentFragment oldChildren
  | Element _ _ oldChildren =>
      compareChildren compareNodes_present path oldChildren newChildren 0
        differences
  | _ =>
      compareChildren compareNodes_present path [] newChildren 0 differences
  end.

(** [compareNodes(oldNode, newNode, differences, path)]; the result is
    the array [differences] after the call. *)
Definition compareNodes (oldNode newNode : option node)
  (differences : list difference) (path : jsstring)
  : completion (list difference) :=
  match oldNode, newNode with
  | Some o, Some n => compareNodes_present o n differences path
  | _, _ => Return (differences ++ [missing_side oldNode newNode path])
  end.

Definition compareHTML (oldHtml newHtml : jsvalue) : completion DiffResult :=
  oldHtml <- normalizeHtml oldHtml ;;
  newHtml <- normalizeHtml newHtml ;;
  if str_eqb oldHtml newHtml then Return (Result false [])
  else
    let oldAst := parse oldHtml in
    let newAst := parse newHtml in
    differences <- compareNodes (Some oldAst) (Some newAst) [] [] ;;
    Return (Result (0 <? List.length differences) differences).

Definition compareText (oldText newText : jsvalue) : completion DiffResult :=
  if strict_eq oldText newText then Return (Result false [])
  else
    charDiffs <- diffChars_call oldText newText ;;
    Return (Result (existsb part_changed charDiffs)
              [TextDifference None (List.map change_of_part charDiffs)]).

Definition diff (oldContent newContent : jsvalue) : completion DiffResult :=
  let isHtml := htmlRegex_test (ToString oldContent)
                || htmlRegex_test (ToString newContent) in
  if isHtml then compareHTML oldContent newContent
  else compareText oldContent newContent.
End Differ.
End Combined.

(** ** seperated.js *)

Module Separated.

(** An entry of [structuralDifferences]: no [kind] property. *)
Inductive structuralDifference : Type :=
| Added (path : jsstring) (n : option node)
| Removed (path : jsstring) (n : option node)
| Changed (path oldTag newTag : jsstring)
| AttributeRemoved (path name oldValue : jsstring)
| AttributeChanged (path name oldValue newValue : jsstring)
| AttributeAdded (path name value : jsstring).

(** An entry of [textDifferences]: [{path, differences}]. *)
Record textDifference : Type :=
  TextDiff { path : jsstring; text_differences : list change }.

(** What [compareHTML] returns. *)
Record HtmlResult : Type :=
  Result { changed : bool;
           structuralDifferences : list structuralDifference;
           textDifferences : list textDifference }.

(** What [compareText] returns: the changes themselves are the
    [differences]. *)
Record TextResult : Type :=
  FlatResult { text_changed : bool; differences : list change }.

(** The two arrays [compareNodes] pushes to. *)
Definition arrays : Type :=
  (list structuralDifference * list textDifference)%type.

Definition push_structural (d : structuralDifference) (a : arrays) : arrays :=
  (fst a ++ [d], snd a).

Definition push_text (d : textDifference) (a : arrays) : arrays :=
  (fst a, snd a ++ [d]).

Section Differ.
Variable parse : jsstring -> node.
Variable diffChars : jsstring -> jsstring -> list part.

Definition normalizeHtml (html : jsvalue) : completion jsstring :=
  match html with
  | VString s => Return (trim (replace_gt_spaces_lt 0 s))
  | _ => Throw TypeError
  end.

(** Lines 39-46. *)
Definition missing_side (oldNode newNode : option node) (path : jsstring)
  : structuralDifference :=
  match oldNode with
  | None => Added path newNode
  | Some _ => Removed path oldNode
  end.

(** Lines 49-56. *)
Definition compareTags (oldNode newNode : node) (path : jsstring)
  (a : arrays) : arrays :=
  if negb (str_eqb (nodeName oldNode) (nodeName newNode))
     && negb (str_eqb (nodeName oldNode) (js "#text"))
  then push_structural (Changed path (nodeName oldNode) (nodeName newNode)) a
  else a.

(** Lines 59-73. *)
Definition compareValues (oldNode newNode : node) (path : jsstring)
  (a : arrays) : completion arrays :=
  if str_eqb (nodeName oldNode) (js "#text")
     && str_eqb (nodeName newNode) (js "#text")
  then
    oldText <- trim_of (value oldNode) ;;
    newText <- trim_of (value newNode) ;;
    if negb (str_eqb oldText newText)
    then
      let charDiffs := diffChars oldText newText in
      Return (push_text (TextDiff path (List.map change_of_part charDiffs)) a)
    else Return a
  else Return a.

(** Lines 76-111. *)
Definition compareAttrs (path : jsstring) (oldNode_attrs newNode_attrs : list attr)
  (a : arrays) : arrays :=
  let oldAttrs := Combined.attrMap oldNode_attrs in
  let newAttrs := Combined.attrMap newNode_attrs in
  let a :=
    fold_left
      (fun a entry =>
         let name := fst entry in
         let oldValue := snd entry in
         match InsertionMap.get str_eqb name newAttrs with
         | None => push_structural (AttributeRemoved path name oldValue) a
         | Some newValue =>
             if negb (str_eqb newValue oldValue)
             then push_structural
                    (AttributeChanged path name oldValue newValue) a
             else a
         end)
      oldAttrs a in
  fold_left
    (fun a entry =>
       let name := fst entry in
       let value := snd entry in
       if negb (InsertionMap.has str_eqb name oldAttrs)
       then push_structural (AttributeAdded path name value) a
       else a)
    newAttrs a.

Definition compareAttrs_if_present (oldNode newNode : node) (path : jsstring)
  (a : arrays) : arrays :=
  match attrs oldNode, attrs newNode with
  | Some oldNode_attrs, Some newNode_attrs =>
      compareAttrs path oldNode_attrs newNode_attrs a
  | _, _ => a
  end.

Fixpoint compareRest (path : jsstring) (newChildren : list node) (i : nat)
  (a : arrays) : arrays :=
  match newChildren with
  | [] => a
  | n :: rest =>
      compareRest path rest (S i)
        (push_structural (missing_side None (Some n) (childPath path i)) a)
  end.

(** Lines 113-127. *)
Fixpoint compareChildren
  (compare : node -> node -> arrays -> jsstring -> completion arrays)
  (path : jsstring) (oldChildren newChildren : list node) (i : nat)
  (a : arrays) {struct oldChildren} : completion arrays :=
  match oldChildren with
  | [] => Return (compareRest path newChildren i a)
  | o :: oldRest =>
      match newChildren with
      | [] =>
          compareChildren compare path oldRest [] (S i)
            (push_structural
               (missing_side (Some o) None (childPath path i)) a)
      | n :: newRest =>
          a <- compare o n a (childPath path i) ;;
          compareChildren compare path oldRest newRest (S i) a
      end
  end.

Fixpoint compareNodes_present (oldNode newNode : node) (a : arrays)
  (path : jsstring) {struct oldNode} : completion arrays :=
  let a := compareTags oldNode newNode path a in
  a <- compareValues oldNode newNode path a ;;
  let a := compareAttrs_if_present oldNode newNode path a in
  let newChildren := childNodes_or_empty newNode in
  match oldNode with
  | Document oldChildren | DocumentFragment oldChildren
  | Element _ _ oldChildren =>
      compareChildren compareNodes_present path oldChildren newChildren 0 a
  | _ => compareChildren compareNodes_present path [] newChildren 0 a
  end.

(** [compareNodes(oldNode, newNode, structuralDifferences,
    textDifferences, path)]. *)
Definition compareNodes (oldNode newNode : option node) (a : arrays)
  (path : jsstring) : completion arrays :=
  match oldNode, newNode with
  | Some o, Some n => compareNodes_present o n a path
  | _, _ => Return (push_structural (missing_side oldNode newNode path) a)
  end.

Definition compareHTML (oldHtml newHtml : jsvalue) : completion HtmlResult :=
  oldHtml <- normalizeHtml oldHtml ;;
  newHtml <- normalizeHtml newHtml ;;
  if str_eqb oldHtml newHtml then Return (Result false [] [])
  else
    let oldAst := parse oldHtml in
    let newAst := parse newHtml in
    a <- compareNodes (Some oldAst) (Some newAst) ([], []) [] ;;
    Return (Result ((0 <? List.length (fst a)) || (0 <? List.length (snd a)))
              (fst a) (snd a)).

Definition compareText (oldText newText : jsvalue) : completion TextResult :=
  if strict_eq oldText newText then Return (FlatResult false [])
  else
    differences <- Combined.diffChars_call diffChars oldText newText ;;
    Return (FlatResult (existsb part_changed differences)
              (List.map change_of_part differences)).

Definition diff (oldContent newContent : jsvalue)
  : completion (HtmlResult + TextResult) :=
  let isHtml := htmlRegex_test (ToString oldContent)
                || htmlRegex_test (ToString newContent) in
  if isHtml then fmap inl (compareHTML oldContent newContent)
  else fmap inr (compareText oldContent newContent).
End Differ.

End Separated.

(** The combined form of a separated entry: the same properties and the
    [kind] the combined script attaches. *)
Definition tag_structural (d : Separated.structuralDifference) : difference :=
  match d with
  | Separated.Added p n => Added p n
  | Separated.Removed p n => Removed p n
  | Separated.Changed p o n => Changed p o n
  | Separated.AttributeRemoved p k v => AttributeRemoved p k v
  | Separated.AttributeChanged p k v w => AttributeChanged p k v w
  | Separated.AttributeAdded p k v => AttributeAdded p k v
  end.

Definition tag_text (d : Separated.textDifference) : difference :=
  TextDifference (Some (Separated.path d)) (Separated.text_differences d).


(** The partition of a combined list by [kind]. *)
Definition is_structural (d : difference) : bool :=
  match kind_of d with structural => true | textual => false end.

Definition is_textual (d : difference) : bool :=
  match kind_of d with structural => false | textual => true end.

(** ** preview.js

    Its [compareHTML], [compareNodes], [compareText] and [diff] repeat
    combined.js line for line; the renderer below calls [Combined.diff]. *)

Module Preview.

(** [escapeHtml(text)]: five replacements, in this order. *)
Definition escapeHtml (text : jsstring) : jsstring :=
  replace_char APOS (js "&#039;")
    (replace_char QUOT (js "&quot;")
       (replace_char GT (js "&gt;")
          (replace_char LT (js "&lt;")
             (replace_char AMP (js "&amp;") text)))).

(** [escapeHtml(node.value)]: [text.replace] throws on [undefined]. *)
Definition escapeHtml_of (text : option jsstring) : completion jsstring :=
  match text with
  | Some s => Return (escapeHtml s)
  | None => Throw TypeError
  end.

(** [difference.type]; a text difference has none. *)
Definition type_of (d : difference) : option jsstring :=
  match d with
  | Added _ _ => Some (js "added")
  | Removed _ _ => Some (js "removed")
  | Changed _ _ _ => Some (js "changed")
  | AttributeRemoved _ _ _ => Some (js "attributeRemoved")
  | AttributeChanged _ _ _ _ => Some (js "attributeChanged")
  | AttributeAdded _ _ _ => Some (js "attributeAdded")
  | TextDifference _ _ => None
  end.

(** Keys of [diffMap]: a path, or [undefined]. *)
Definition key_eqb (a b : option jsstring) : bool :=
  match a, b with
  | None, None => true
  | Some s, Some t => str_eqb s t
  | _, _ => false
  end.

(** [new Map(result.differences.map(diff => [diff.path, diff]))]. *)
Definition diffMap_of (differences : list difference)
  : InsertionMap.t (option jsstring) difference :=
  InsertionMap.of_entries key_eqb
    (List.map (fun d => (path_of d, d)) differences).

(** [`<span class="diff-${change.type}">${escapeHtml(change.content)}</span>`]. *)
Definition renderChange (c : change) : jsstring :=
  js "<span class=" ++ dquote ++ js "diff-" ++ changeType_string (type c)
  ++ dquote ++ js ">" ++ escapeHtml (content c) ++ js "</span>".

(** [` ${attr.name}="${attr.value}"`]. *)
Definition renderAttr (a : attr) : jsstring :=
  js " " ++ name a ++ js "=" ++ dquote ++ attr_value a ++ dquote.

(** The two tests on [diff.type] in the element branch (lines 202-210):
    neither adds an annotation, and [diff.type.startsWith] throws when
    the difference has no [type]. *)
Definition inspect_type (diff : option difference) : completion unit :=
  match diff with
  | None => Return tt
  | Some d =>
      match type_of d with
      | Some _ => Return tt
      | None => Throw TypeError
      end
  end.

(** A property read inside a template literal: [undefined] is written
    as the word. *)
Definition interpolate (v : option jsstring) : jsstring :=
  match v with
  | Some s => s
  | None => js "undefined"
  end.

(** [formatStructuralDiff(difference)]: the switch on [difference.type]. *)
Definition formatStructuralDiff (difference : difference) : jsstring :=
  match difference with
  | AttributeChanged _ name oldValue newValue =>
      js "Attribute " ++ dquote ++ name ++ dquote ++ js " changed from "
      ++ dquote ++ oldValue ++ dquote ++ js " to " ++ dquote ++ newValue ++ dquote
  | AttributeAdded _ name value =>
      js "Attribute " ++ dquote ++ name ++ dquote ++ js " added with value "
      ++ dquote ++ value ++ dquote
  | AttributeRemoved _ name oldValue =>
      js "Attribute " ++ dquote ++ name ++ dquote ++ js " removed (was "
      ++ dquote ++ oldValue ++ dquote ++ js ")"
  | Changed _ oldTag newTag =>
      js "Element changed from " ++ dquote ++ oldTag ++ dquote ++ js " to "
      ++ dquote ++ newTag ++ dquote
  | _ =>
      interpolate (type_of difference) ++ js " at "
      ++ interpolate (path_of difference)
  end.

Section Renderer.
Variable parse : jsstring -> node.
Variable diffChars : jsstring -> jsstring -> list part.

Section RenderNode.
Variable diffMap : InsertionMap.t (option jsstring) difference.

(** [children.map((child, i) => renderNode(child, childPath))]. *)
Fixpoint renderChildren
  (render : node -> jsstring -> completion jsstring)
  (path : jsstring) (children : list node) (i : nat)
  : completion (list jsstring) :=
  match children with
  | [] => Return []
  | child :: rest =>
      s <- render child (childPath path i) ;;
      ss <- renderChildren render path rest (S i) ;;
      Return (s :: ss)
  end.

Fixpoint renderNode (node : node) (path : jsstring) {struct node}
  : completion jsstring :=
  let rendered_children :=
    match node with
    | Document c | DocumentFragment c | Element _ _ c =>
        renderChildren renderNode path c 0
    | _ => renderChildren renderNode path [] 0
    end in
  if str_eqb (nodeName node) (js "#text") then
    match InsertionMap.get key_eqb (Some path) diffMap with
    | Some (TextDifference _ changes) =>
        Return (join (List.map renderChange changes))
    | _ => escapeHtml_of (value node)
    end
  else if str_eqb (nodeName node) (js "#document")
          || str_eqb (nodeName node) (js "#document-fragment") then
    fmap join rendered_children
  else
    let diff := InsertionMap.get key_eqb (Some path) diffMap in
    let attrs :=
      match attrs node with
      | Some a => join (List.map renderAttr a)
      | None => []
      end in
    let structuralChanges : list jsstring := [] in
    _ <- inspect_type diff ;;
    children <- fmap join rendered_children ;;
    Return (js "<" ++ nodeName node ++ attrs ++ js ">"
            ++ join structuralChanges ++ children
            ++ js "</" ++ nodeName node ++ js ">").
End RenderNode.

(** [`<div class="diff-preview">${body}</div>`]. *)
Definition wrap (body : jsstring) : jsstring :=
  js "<div class=" ++ dquote ++ js "diff-preview" ++ dquote ++ js ">"
  ++ body ++ js "</div>".

Definition renderDiffPreview (oldContent newContent : jsvalue)
  : completion jsstring :=
  result <- Combined.diff parse diffChars oldContent newContent ;;
  if negb (changed result) then Return (wrap (ToString oldContent))
  else
    match newContent with
    | VString newContent =>
        let doc := parse newContent in
        let diffMap := diffMap_of (differences result) in
        body <- renderNode diffMap doc [] ;;
        Return (wrap body)
    | _ =>
        (* not reached: [diff] reports a change only for two strings *)
        Throw TypeError
    end.
End Renderer.
End Preview.

(** ** What the development assumes of the two libraries *)

(** The old text read off an edit script: the parts not marked added. *)
Definition old_side (parts : list part) : jsstring :=
  join (List.map part_value (filter (fun p => negb (added p)) parts)).

(** The new text: the parts not marked removed. *)
Definition new_side (parts : list part) : jsstring :=
  join (List.map part_value (filter (fun p => negb (removed p)) parts)).

(** [diffChars] answers with an edit script from its first argument to its
    second. *)
Definition edit_script (diffChars : jsstring -> jsstring -> list part) : Prop :=
  forall a b, old_side (diffChars a b) = a /\ new_side (diffChars a b) = b.

(** The parser builds trees in which every [#text] node has a [value]. *)
Definition well_formed_parser (parse : jsstring -> node) : Prop :=
  forall s, text_has_value (parse s) = true.

(** ** Properties of escaped text *)

(** The five entities [escapeHtml] writes. *)
Definition entities : list jsstring :=
  [js "&amp;"; js "&lt;"; js "&gt;"; js "&quot;"; js "&#039;"].

Fixpoint is_prefix (p s : jsstring) : bool :=
  match p, s with
  | [], _ => true
  | x :: p', y :: s' => N.eqb x y && is_prefix p' s'
  | _ :: _, [] => false
  end.

(** No [<], [>], double quote or apostrophe occurs in [s]. *)
Definition markup_free (s : jsstring) : bool :=
  forallb (fun c => negb (c =? LT)%N && negb (c =? GT)%N
                    && negb (c =? QUOT)%N && negb (c =? APOS)%N) s.

(** Every [&] of [s] starts one of the five entities. *)
Fixpoint ampersands_start_entities (s : jsstring) : bool :=
  match s with
  | [] => true
  | c :: s' =>
      (if (c =? AMP)%N then existsb (fun e => is_prefix e s) entities else true)
      && ampersands_start_entities s'
  end.

(** What the five replacements together write for one code unit. *)
Definition escape_char (c : N) : jsstring :=
  if (c =? AMP)%N then js "&amp;"
  else if (c =? LT)%N then js "&lt;"
  else if (c =? GT)%N then js "&gt;"
  else if (c =? QUOT)%N then js "&quot;"
  else if (c =? APOS)%N then js "&#039;"
  else [c].

(** ** Attribute differences, read off a list of differences *)

(** The attribute a difference is about. *)
Definition attribute_of (d : difference) : option jsstring :=
  match d with
  | AttributeRemoved _ k _ | AttributeChanged _ k _ _ | AttributeAdded _ k _ =>
      Some k
  | _ => None
  end.

(** ** Sample collaborators, for running the scripts on concrete inputs *)

Module Sample.

(** The document parse5 builds around a body. *)
Definition page (body : list node) : node :=
  Document
    [Element (js "html") []
       [Element (js "head") [] []; Element (js "body") [] body]].

(** [parse5.parse('<div>hello</div>')]. *)
Definition div_hello : node :=
  page [Element (js "div") [] [Text (js "hello")]].

(** [parse5.parse('<div><br></div>')]. *)
Definition div_br : node :=
  page [Element (js "div") [] [Element (js "br") [] []]].

(** [parse5.parse('<p>a</p>')]. *)
Definition p_a : node :=
  page [Element (js "p") [] [Text (js "a")]].

(** [parse5.parse('<p>b</p>')]. *)
Definition p_b : node :=
  page [Element (js "p") [] [Text (js "b")]].

(** A table of parse5's trees for the documents above; any other input is
    taken as character data of the body. *)
Definition parse (html : jsstring) : node :=
  if str_eqb html (js "<div>hello</div>") then div_hello
  else if str_eqb html (js "<div><br></div>") then div_br
  else if str_eqb html (js "<p>a</p>") then p_a
  else if str_eqb html (js "<p>b</p>") then p_b
  else match html with
       | [] => page []
       | _ => page [Text html]
       end.

(** The coarsest edit script: equal strings are one unchanged part,
    different strings are a removal followed by an insertion. *)
Definition part_if_nonempty (s : jsstring) (a r : bool) : list part :=
  match s with
  | [] => []
  | _ => [Part s a r]
  end.

Definition diffChars (a b : jsstring) : list part :=
  if str_eqb a b then part_if_nonempty a false false
  else part_if_nonempty a false true ++ part_if_nonempty b true false.

End Sample.

(** ** Notions used to state the traversal's properties *)

(** A string in which some [<] is directly followed by an ASCII letter
    and, anywhere after that letter, by a [>]. *)
Definition tag_shaped (s : jsstring) : Prop :=
  exists pre l mid post,
    s = pre ++ LT :: l :: mid ++ GT :: post /\ is_letter l = true.

(** A step that only pushes to the array it is handed. *)
Definition appends {X : Type} (F : list X -> completion (list X)) : Prop :=
  forall d, F d = fmap (app d) (F []).

(** The separated arrays hold the partition by kind of a combined array. *)
Definition partition_of (d : list difference) (a : Separated.arrays) : Prop :=
  List.map tag_structural (fst a) = filter is_structural d
  /\ List.map tag_text (snd a) = filter is_textual d.

(** Two runs end alike: both throw, or both return related states. *)
Definition both_complete {A B : Type} (R : A -> B -> Prop)
  (x : completion A) (y : completion B) : Prop :=
  match x, y with
  | Return a, Return b => R a b
  | Throw e, Throw e' => e = e'
  | _, _ => False
  end.

(** The two loops of the attribute block, by what each writes for one
    entry of the map it walks. *)
Definition old_pass (path : jsstring) (newAttrs : InsertionMap.t jsstring jsstring)
  (entry : jsstring * jsstring) : list difference :=
  match InsertionMap.get str_eqb (fst entry) newAttrs with
  | None => [AttributeRemoved path (fst entry) (snd entry)]
  | Some newValue =>
      if negb (str_eqb newValue (snd entry))
      then [AttributeChanged path (fst entry) (snd entry) newValue]
      else []
  end.

Definition new_pass (path : jsstring) (oldAttrs : InsertionMap.t jsstring jsstring)
  (entry : jsstring * jsstring) : list difference :=
  if negb (InsertionMap.has str_eqb (fst entry) oldAttrs)
  then [AttributeAdded path (fst entry) (snd entry)]
  else [].

(** A key of the old map whose entry differs in the new map: absent
    there, or present with another value. *)
Definition differs_in_new (oldAttrs newAttrs : InsertionMap.t jsstring jsstring)
  (k : jsstring) : bool :=
  match InsertionMap.get str_eqb k oldAttrs, InsertionMap.get str_eqb k newAttrs with
  | Some v, Some w => negb (str_eqb w v)
  | Some _, None => true
  | None, _ => false
  end.

(** Two trees in which, position by position, a text node never faces a
    node of another kind. *)
Definition is_text (n : node) : bool := str_eqb (nodeName n) (js "#text").

Fixpoint aligned_children (aligned : node -> node -> bool)
  (oc nc : list node) {struct oc} : bool :=
  match oc, nc with
  | o :: oc', n :: nc' => aligned o n && aligned_children aligned oc' nc'
  | _, _ => true
  end.

Fixpoint aligned (o n : node) {struct o} : bool :=
  Bool.eqb (is_text o) (is_text n)
  && match o with
     | Document c | DocumentFragment c | Element _ _ c =>
         aligned_children aligned c (childNodes_or_empty n)
     | _ => true
     end.

(** ** Positions, for the properties of paths *)

(** The node reached from [n] by following child indices. *)
Fixpoint node_at (indices : list nat) (n : node) : option node :=
  match indices with
  | [] => Some n
  | i :: rest =>
      match nth_error (childNodes_or_empty n) i with
      | Some c => node_at rest c
      | None => None
      end
  end.

(** The path the traversal has built after descending along [indices]
    from a node whose path is [path]. *)
Definition path_from (path : jsstring) (indices : list nat) : jsstring :=
  fold_left childPath indices path.

(** The part of a path written after the starting node's own path: a
    slash and the decimal index, for every step down. *)
Definition path_tail (indices : list nat) : jsstring :=
  flat_map (fun i => js "/" ++ String_of_index i) indices.

(** What a difference says of the two nodes at its position. *)
Definition reports (diffChars : jsstring -> jsstring -> list part)
  (x : difference) (old new : option node) : Prop :=
  match x with
  | Added _ p => old = None /\ new = p /\ p <> None
  | Removed _ p => new = None /\ old = p /\ p <> None
  | Changed _ a b =>
      exists o n, old = Some o /\ new = Some n
                  /\ a = nodeName o /\ b = nodeName n /\ a <> b
  | AttributeRemoved _ k v =>
      exists o n oa na, old = Some o /\ new = Some n
        /\ attrs o = Some oa /\ attrs n = Some na
        /\ InsertionMap.get str_eqb k (Combined.attrMap oa) = Some v
        /\ InsertionMap.get str_eqb k (Combined.attrMap na) = None
  | AttributeChanged _ k v w =>
      exists o n oa na, old = Some o /\ new = Some n
        /\ attrs o = Some oa /\ attrs n = Some na
        /\ InsertionMap.get str_eqb k (Combined.attrMap oa) = Some v
        /\ InsertionMap.get str_eqb k (Combined.attrMap na) = Some w /\ w <> v
  | AttributeAdded _ k v =>
      exists o n oa na, old = Some o /\ new = Some n
        /\ attrs o = Some oa /\ attrs n = Some na
        /\ InsertionMap.get str_eqb k (Combined.attrMap na) = Some v
        /\ InsertionMap.get str_eqb k (Combined.attrMap oa) = None
  | TextDifference _ changes =>
      exists a b, old = Some (Text a) /\ new = Some (Text b)
        /\ trim a <> trim b
        /\ changes = List.map change_of_part (diffChars (trim a) (trim b))
  end.

(** ** The renderer's view of a difference map *)

(** The changes the renderer finds for a path: those of a text difference
    stored under it. *)
Definition textual_lookup (m : InsertionMap.t (option jsstring) difference)
  (path : jsstring) : option (list change) :=
  match InsertionMap.get Preview.key_eqb (Some path) m with
  | Some (TextDifference _ changes) => Some changes
  | _ => None
  end.

(** A node the renderer writes as an element: its name is none of the
    three it tests for. *)
Definition rendered_as_element (n : node) : bool :=
  negb (str_eqb (nodeName n) (js "#text"))
  && negb (str_eqb (nodeName n) (js "#document"))
  && negb (str_eqb (nodeName n) (js "#document-fragment")).

(** The new tree written out with no difference applied: text escaped,
    a document as its children, every other node as an element named by
    its [nodeName]. *)
Fixpoint serialize (n : node) : jsstring :=
  let inner := fix inner (l : list node) : jsstring :=
    match l with
    | [] => []
    | c :: l' => serialize c ++ inner l'
    end in
  match n with
  | Text v => Preview.escapeHtml v
  | Document c | DocumentFragment c => inner c
  | DocumentType _ | Comment _ =>
      js "<" ++ nodeName n ++ js ">" ++ js "</" ++ nodeName n ++ js ">"
  | Element t a c =>
      if str_eqb t (js "#document") || str_eqb t (js "#document-fragment")
      then inner c
      else js "<" ++ t ++ join (List.map Preview.renderAttr a) ++ js ">"
           ++ inner c ++ js "</" ++ t ++ js ">"
  end.

(** ** Edit scripts, read off the changes of a text difference *)

Definition old_text (changes : list change) : jsstring :=
  join (List.map content
          (filter (fun c => match type c with SegAdded => false | _ => true end)
             changes)).

Definition new_text (changes : list change) : jsstring :=
  join (List.map content
          (filter (fun c => match type c with SegRemoved => false | _ => true end)
             changes)).

(** No part is flagged both added and removed. *)
Definition flags_exclusive (diffChars : jsstring -> jsstring -> list part) : Prop :=
  forall a b, forallb (fun p => negb (added p && removed p)) (diffChars a b) = true.

(** ** More sample trees *)

Module Spaced.

(** [parse5.parse('<div><p></p>y</div>')]. *)
Definition old_tree : node :=
  Sample.page [Element (js "div") []
                 [Element (js "p") [] []; Text (js "y")]].

(** [parse5.parse('<div><p></p>x</div>')]: the new content once
    normalized. *)
Definition new_tree : node :=
  Sample.page [Element (js "div") []
                 [Element (js "p") [] []; Text (js "x")]].

(** [parse5.parse('<div> <p></p>x</div>')]: the new content as given. *)
Definition new_tree_as_given : node :=
  Sample.page [Element (js "div") []
                 [Text (js " "); Element (js "p") [] []; Text (js "x")]].

Definition parse (html : jsstring) : node :=
  if str_eqb html (js "<div><p></p>y</div>") then old_tree
  else if str_eqb html (js "<div><p></p>x</div>") then new_tree
  else if str_eqb html (js "<div> <p></p>x</div>") then new_tree_as_given
  else Sample.parse html.

End Spaced.

(** * Properties *)

Unset Implicit Arguments.

(** ** Strings, completions and the parser's trees *)

Lemma str_eqb_refl (s : jsstring) : str_eqb s s = true.
Proof.
  induction s as [|c s IH]; simpl; [reflexivity|].
  now rewrite N.eqb_refl.
Qed.

Lemma str_eqb_eq (a b : jsstring) : str_eqb a b = true <-> a = b.
Proof.
  split.
  - revert b; induction a as [|x a IH]; intros [|y b]; simpl;
      try discriminate; [reflexivity|].
    intros H; apply andb_prop in H as [Hx Hab].
    apply N.eqb_eq in Hx; subst y. now rewrite (IH b Hab).
  - intros ->; apply str_eqb_refl.
Qed.

Lemma str_eqb_neq (a b : jsstring) : str_eqb a b = false <-> a <> b.
Proof.
  split.
  - intros H E. apply str_eqb_eq in E. congruence.
  - intros H. destruct (str_eqb a b) eqn:E; [|reflexivity].
    apply str_eqb_eq in E. contradiction.
Qed.

Lemma str_eqb_sym (a b : jsstring) : str_eqb a b = str_eqb b a.
Proof.
  destruct (str_eqb a b) eqn:E.
  - apply str_eqb_eq in E; subst; symmetry; apply str_eqb_refl.
  - symmetry; apply str_eqb_neq; apply str_eqb_neq in E; congruence.
Qed.

Lemma strict_eq_refl (v : jsvalue) : strict_eq v v = true.
Proof. destruct v; simpl; auto using str_eqb_refl. Qed.

Lemma bind_Return_r {A : Type} (c : completion A) :
  bind c (fun a => Return a) = c.
Proof. now destruct c. Qed.

Lemma bind_assoc {A B C : Type} (c : completion A)
  (f : A -> completion B) (g : B -> completion C) :
  bind (bind c f) g = bind c (fun a => bind (f a) g).
Proof. now destruct c. Qed.

Lemma fmap_fmap {A B C : Type} (f : A -> B) (g : B -> C) (c : completion A) :
  fmap g (fmap f c) = fmap (fun a => g (f a)) c.
Proof. now destruct c. Qed.

(** Induction over a tree, with the hypothesis for every child. *)
Lemma node_forall_ind (P : node -> Prop) :
  (forall c, Forall P c -> P (Document c)) ->
  (forall c, Forall P c -> P (DocumentFragment c)) ->
  (forall d, P (DocumentType d)) ->
  (forall d, P (Comment d)) ->
  (forall v, P (Text v)) ->
  (forall t a c, Forall P c -> P (Element t a c)) ->
  forall n, P n.
Proof.
  intros HDoc HFrag HType HComment HText HElement.
  fix self 1.
  assert (all : forall c, Forall P c).
  { fix all 1. intros [|x c]; constructor; [apply self | apply all]. }
  intros [c|c|d|d|v|t a c].
  - apply HDoc, all.
  - apply HFrag, all.
  - apply HType.
  - apply HComment.
  - apply HText.
  - apply HElement, all.
Qed.

Lemma text_has_value_children (n : node) :
  text_has_value n = true ->
  forallb text_has_value (childNodes_or_empty n) = true.
Proof.
  assert (all_eq : forall l,
    (fix all (l : list node) : bool :=
       match l with [] => true | c :: l' => text_has_value c && all l' end) l
    = forallb text_has_value l).
  { induction l as [|c l IH]; simpl; [reflexivity | now rewrite IH]. }
  destruct n as [c|c|d|d|v|t a c]; simpl; try reflexivity;
    rewrite ?all_eq; auto.
  intros H; apply andb_prop in H as [_ H]; exact H.
Qed.

(** A node named [#text] of such a tree is a text node. *)
Lemma text_has_value_named (n : node) :
  text_has_value n = true ->
  str_eqb (nodeName n) (js "#text") = true ->
  exists v, n = Text v.
Proof.
  destruct n as [c|c|d|d|v|t a c]; simpl; try discriminate.
  - intros _ _; now exists v.
  - intros H E. rewrite E in H. discriminate.
Qed.

(** ** The co-traversal of combined.js *)

Lemma for_from_ext {St : Type} (f g : nat -> St -> completion St)
  (n i : nat) (s : St) :
  (forall j s, i <= j -> f j s = g j s) ->
  for_from i n f s = for_from i n g s.
Proof.
  revert i s; induction n as [|n IH]; intros i s H; simpl; [reflexivity|].
  rewrite H by lia. destruct (g i s); simpl; [|reflexivity].
  apply IH. intros; apply H; lia.
Qed.

Section CombinedTraversal.
Variable diffChars : jsstring -> jsstring -> list part.

Local Abbreviation compareNodes := (Combined.compareNodes diffChars).
Local Abbreviation compareNodes_present := (Combined.compareNodes_present diffChars).
Local Abbreviation compareValues := (Combined.compareValues diffChars).

(** [compareNodes] as the source writes it: the tag block, the text
    block, the attribute block, then the child loop. *)
Lemma compareNodes_present_eq (o n : node) (d : list difference)
  (path : jsstring) :
  compareNodes_present o n d path =
  (d1 <- compareValues o n path (Combined.compareTags o n path d) ;;
   Combined.compareChildren compareNodes_present path
     (childNodes_or_empty o) (childNodes_or_empty n) 0
     (Combined.compareAttrs_if_present o n path d1)).
Proof. destruct o; reflexivity. Qed.

(** The child loop is the loop of the source: for [j] from [i] up to the
    longer length, [compareNodes(oldChildren[j], newChildren[j], ...)]. *)
Lemma compareChildren_for_from (path : jsstring) (oc nc : list node)
  (i : nat) (d : list difference) :
  Combined.compareChildren compareNodes_present path oc nc i d =
  for_from i (Nat.max (List.length oc) (List.length nc))
    (fun j d => compareNodes (nth_error oc (j - i)) (nth_error nc (j - i))
                  d (childPath path j))
    d.
Proof.
  revert nc i d; induction oc as [|o oc IH]; intros nc i d.
  - simpl. revert i d; induction nc as [|n nc IHn]; intros i d; simpl.
    + reflexivity.
    + rewrite Nat.sub_diag; simpl. rewrite IHn.
      apply for_from_ext. intros j s Hj.
      replace (j - i) with (S (j - S i)) by lia.
      cbn [nth_error]. now destruct (j - S i).
  - destruct nc as [|n nc].
    + cbn [Combined.compareChildren List.length Nat.max for_from].
      rewrite Nat.sub_diag. cbn [nth_error]. simpl bind.
      rewrite IH. simpl List.length. rewrite Nat.max_0_r.
      apply for_from_ext. intros j s Hj.
      replace (j - i) with (S (j - S i)) by lia.
      cbn [nth_error]. now destruct (j - S i).
    + cbn [Combined.compareChildren List.length Nat.max for_from].
      rewrite Nat.sub_diag. cbn [nth_error].
      change (compareNodes (Some o) (Some n) d (childPath path i))
        with (compareNodes_present o n d (childPath path i)).
      destruct (compareNodes_present o n d (childPath path i)) as [d'|e];
        simpl bind; [|reflexivity].
      rewrite IH. apply for_from_ext. intros j s Hj.
      replace (j - i) with (S (j - S i)) by lia. reflexivity.
Qed.

Lemma compareChildren_for_loop (path : jsstring) (o n : node)
  (d : list difference) :
  let oldChildren := childNodes_or_empty o in
  let newChildren := childNodes_or_empty n in
  let maxLength := Nat.max (List.length oldChildren) (List.length newChildren) in
  Combined.compareChildren compareNodes_present path oldChildren newChildren 0 d =
  for_loop maxLength
    (fun i d => compareNodes (nth_error oldChildren i) (nth_error newChildren i)
                  d (childPath path i))
    d.
Proof.
  intros oc nc m. unfold for_loop, m. rewrite compareChildren_for_from.
  apply for_from_ext. intros j s _. now rewrite Nat.sub_0_r.
Qed.
End CombinedTraversal.

(** ** Every block only appends to [differences] *)

Lemma appends_Return {X : Type} (f : list X -> list X) :
  (forall d, f d = d ++ f []) -> appends (fun d => Return (f d)).
Proof. intros H d; simpl. now rewrite H. Qed.

Lemma appends_bind {X : Type} (F G : list X -> completion (list X)) :
  appends F -> appends G -> appends (fun d => bind (F d) G).
Proof.
  intros HF HG d. rewrite HF. destruct (F []) as [d1|e]; simpl; [|reflexivity].
  rewrite HG, (HG d1). destruct (G []) as [d2|e]; simpl; [|reflexivity].
  now rewrite app_assoc.
Qed.

Lemma fold_left_push {X E : Type} (step : E -> list X) (l : list E)
  (d : list X) :
  fold_left (fun d e => d ++ step e) l d = d ++ flat_map step l.
Proof.
  revert d; induction l as [|e l IH]; intros d; simpl.
  - now rewrite app_nil_r.
  - now rewrite IH, app_assoc.
Qed.

Lemma fold_left_ext {A B : Type} (f g : A -> B -> A) (l : list B) (a : A) :
  (forall a b, f a b = g a b) -> fold_left f l a = fold_left g l a.
Proof.
  intros H; revert a; induction l as [|b l IH]; intros a; simpl;
    [reflexivity | now rewrite H, IH].
Qed.

Section CombinedAppends.
Variable diffChars : jsstring -> jsstring -> list part.

Lemma compareTags_app (o n : node) (path : jsstring) (d : list difference) :
  Combined.compareTags o n path d = d ++ Combined.compareTags o n path [].
Proof.
  unfold Combined.compareTags.
  destruct (_ && _); simpl; [reflexivity | now rewrite app_nil_r].
Qed.

Lemma compareValues_appends (o n : node) (path : jsstring) :
  appends (Combined.compareValues diffChars o n path).
Proof.
  intros d. unfold Combined.compareValues.
  destruct (_ && _); simpl; [|now rewrite app_nil_r].
  destruct (trim_of (value o)) as [ot|e]; simpl; [|reflexivity].
  destruct (trim_of (value n)) as [nt|e]; simpl; [|reflexivity].
  destruct (negb _); simpl; [reflexivity | now rewrite app_nil_r].
Qed.

Lemma compareAttrs_passes (path : jsstring) (oa na : list attr)
  (d : list difference) :
  Combined.compareAttrs path oa na d =
  d ++ flat_map (old_pass path (Combined.attrMap na)) (Combined.attrMap oa)
    ++ flat_map (new_pass path (Combined.attrMap oa)) (Combined.attrMap na).
Proof.
  unfold Combined.compareAttrs.
  rewrite app_assoc, <- !fold_left_push.
  match goal with
  | |- fold_left ?f ?l (fold_left ?g ?m d) = fold_left ?f' ?l (fold_left ?g' ?m d) =>
      rewrite (fold_left_ext f f' l), (fold_left_ext g g' m)
  end; [reflexivity | |].
  - intros acc e. unfold old_pass.
    destruct (InsertionMap.get _ _ _); [|reflexivity].
    destruct (negb _); [reflexivity | now rewrite app_nil_r].
  - intros acc e. unfold new_pass.
    destruct (negb _); [reflexivity | now rewrite app_nil_r].
Qed.

Lemma compareAttrs_if_present_app (o n : node) (path : jsstring)
  (d : list difference) :
  Combined.compareAttrs_if_present o n path d =
  d ++ Combined.compareAttrs_if_present o n path [].
Proof.
  unfold Combined.compareAttrs_if_present.
  destruct (attrs o), (attrs n); rewrite ?app_nil_r; try reflexivity.
  now rewrite compareAttrs_passes, (compareAttrs_passes _ _ _ []).
Qed.

Lemma compareRest_app (path : jsstring) (nc : list node) (i : nat)
  (d : list difference) :
  Combined.compareRest path nc i d = d ++ Combined.compareRest path nc i [].
Proof.
  revert i d; induction nc as [|n nc IH]; intros i d; simpl.
  - now rewrite app_nil_r.
  - rewrite IH, (IH _ [_]). now rewrite app_assoc.
Qed.

Lemma compareChildren_appends
  (compare : node -> node -> list difference -> jsstring
             -> completion (list difference))
  (path : jsstring) (oc nc : list node) (i : nat) :
  Forall (fun o => forall n p, appends (fun d => compare o n d p)) oc ->
  appends (Combined.compareChildren compare path oc nc i).
Proof.
  intros H; revert nc i; induction H as [|o oc Ho _ IH]; intros nc i.
  - simpl. apply appends_Return. intros; apply compareRest_app.
  - destruct nc as [|n nc]; cbn [Combined.compareChildren].
    + intros d. rewrite IH, (IH _ _ ([] ++ _)).
      destruct (Combined.compareChildren _ _ _ _ _ []); simpl; [|reflexivity].
      now rewrite <- app_assoc.
    + apply (@appends_bind _ (fun d => compare o n d (childPath path i))
               (Combined.compareChildren compare path oc nc (S i)));
        [apply Ho | apply IH].
Qed.

Lemma compareNodes_present_appends (o n : node) (path : jsstring) :
  appends (fun d => Combined.compareNodes_present diffChars o n d path).
Proof.
  revert n path.
  assert (step : forall o,
    Forall (fun o => forall n p,
              appends (fun d => Combined.compareNodes_present diffChars o n d p))
      (childNodes_or_empty o) ->
    forall n path,
      appends (fun d => Combined.compareNodes_present diffChars o n d path)).
  { clear o. intros o Hc n path d.
    rewrite !compareNodes_present_eq.
    rewrite compareTags_app.
    set (t := Combined.compareTags o n path []).
    rewrite (compareValues_appends o n path (d ++ t)),
      (compareValues_appends o n path t).
    destruct (Combined.compareValues diffChars o n path []) as [d1|e];
      simpl; [|reflexivity].
    pose proof (compareChildren_appends _ path _ (childNodes_or_empty n) 0 Hc)
      as HC.
    rewrite compareAttrs_if_present_app,
      (compareAttrs_if_present_app _ _ _ (t ++ d1)).
    rewrite HC, (HC ((t ++ d1) ++ _)).
    destruct (Combined.compareChildren _ _ _ _ _ []); simpl; [|reflexivity].
    now rewrite !app_assoc. }
  induction o using node_forall_ind; apply step; simpl; auto.
Qed.

Lemma compareNodes_appends (o n : option node) (path : jsstring) :
  appends (fun d => Combined.compareNodes diffChars o n d path).
Proof.
  destruct o as [o|], n as [n|]; simpl;
    try (intros d; reflexivity).
  apply compareNodes_present_appends.
Qed.
End CombinedAppends.

Section CombinedBlocks.
Variable diffChars : jsstring -> jsstring -> list part.

(** What one pair of present nodes contributes, in order: the tag
    difference, the text difference, the attribute differences, then
    whatever the children contribute.  No block is skipped because an
    earlier one reported something. *)
Lemma compareNodes_present_blocks (o n : node) (path : jsstring) :
  Combined.compareNodes_present diffChars o n [] path =
  (t <- Combined.compareValues diffChars o n path [] ;;
   c <- Combined.compareChildren (Combined.compareNodes_present diffChars)
          path (childNodes_or_empty o) (childNodes_or_empty n) 0 [] ;;
   Return (Combined.compareTags o n path [] ++ t
           ++ Combined.compareAttrs_if_present o n path [] ++ c)).
Proof.
  rewrite compareNodes_present_eq.
  rewrite (compareValues_appends diffChars o n path (Combined.compareTags _ _ _ _)).
  destruct (Combined.compareValues diffChars o n path []) as [t|e];
    simpl; [|reflexivity].
  rewrite compareAttrs_if_present_app.
  rewrite (compareChildren_appends _ path (childNodes_or_empty o)).
  - destruct (Combined.compareChildren _ _ _ _ _ []); simpl; [|reflexivity].
    now rewrite <- !app_assoc.
  - apply Forall_forall. intros x _ m p.
    apply compareNodes_present_appends.
Qed.

(** When the old children run out, the rest of the loop pushes one
    [added] per remaining new child. *)
Lemma compareRest_eq (path : jsstring) (nc : list node) (i : nat) :
  Combined.compareRest path nc i [] =
  List.map (fun jc => Added (childPath path (fst jc)) (Some (snd jc)))
    (combine (seq i (List.length nc)) nc).
Proof.
  revert i; induction nc as [|c nc IH]; intros i; simpl; [reflexivity|].
  now rewrite compareRest_app, IH.
Qed.

(** When the new children run out, one [removed] per remaining old
    child, whatever the recursive call would do. *)
Lemma compareChildren_new_exhausted
  (compare : node -> node -> list difference -> jsstring
             -> completion (list difference))
  (path : jsstring) (oc : list node) (i : nat) (d : list difference) :
  Combined.compareChildren compare path oc [] i d =
  Return (d ++ List.map
                 (fun jc => Removed (childPath path (fst jc)) (Some (snd jc)))
                 (combine (seq i (List.length oc)) oc)).
Proof.
  revert i d; induction oc as [|c oc IH]; intros i d; simpl.
  - now rewrite app_nil_r.
  - rewrite IH. now rewrite <- app_assoc.
Qed.
End CombinedBlocks.

(** ** The presence check and the tag check *)

(** The child loop splits at the shorter length: the children that have a
    partner are compared pairwise, then every child left over on one side
    gets its one difference. *)
Lemma compareChildren_split
  (compare : node -> node -> list difference -> jsstring
             -> completion (list difference))
  (path : jsstring) (oc nc : list node) (i : nat) (d : list difference) :
  let m := Nat.min (List.length oc) (List.length nc) in
  Combined.compareChildren compare path oc nc i d =
  (r <- Combined.compareChildren compare path (firstn m oc) (firstn m nc) i d ;;
   Return (r
           ++ List.map
                (fun jc => Removed (childPath path (fst jc)) (Some (snd jc)))
                (combine (seq (i + m) (List.length (skipn m oc))) (skipn m oc))
           ++ List.map
                (fun jc => Added (childPath path (fst jc)) (Some (snd jc)))
                (combine (seq (i + m) (List.length (skipn m nc))) (skipn m nc)))).
Proof.
  revert nc i d; induction oc as [|o oc IH]; intros nc i d.
  - cbn [List.length Nat.min firstn skipn Combined.compareChildren
         Combined.compareRest bind combine List.map seq].
    rewrite Nat.add_0_r, compareRest_app, compareRest_eq. reflexivity.
  - destruct nc as [|n nc].
    + cbn [List.length Nat.min firstn skipn bind combine List.map].
      rewrite Nat.add_0_r, compareChildren_new_exhausted.
      cbn [Combined.compareChildren Combined.compareRest bind].
      now rewrite app_nil_r.
    + cbn [List.length Nat.min firstn skipn Combined.compareChildren].
      rewrite bind_assoc.
      destruct (compare o n d (childPath path i)) as [x|e];
        cbn [bind]; [|reflexivity].
      rewrite IH. now rewrite Nat.add_succ_r.
Qed.

(** C5.  When one side is absent at a path, [compareNodes] pushes exactly
    one difference there, [added] carrying the whole new node or [removed]
    carrying the whole old node, and returns without descending.  The
    traversal of two present nodes reaches that case through its child
    loop: it calls [compareNodes] at every index below the longer child
    list with the two children found there, so the children that have a
    partner are compared in turn and every child beyond the shorter list,
    having none, is reported once and whole, after them. *)
Theorem compareNodes_absent_side
  (diffChars : jsstring -> jsstring -> list part)
  (present : node) (d : list difference) (path : jsstring) :
  Combined.compareNodes diffChars None (Some present) d path
  = Return (d ++ [Added path (Some present)])
  /\ Combined.compareNodes diffChars (Some present) None d path
     = Return (d ++ [Removed path (Some present)])
  /\ (forall newChildren i,
        Combined.compareChildren (Combined.compareNodes_present diffChars)
          path [] newChildren i d
        = Return (d ++ List.map
                         (fun jc => Added (childPath path (fst jc)) (Some (snd jc)))
                         (combine (seq i (List.length newChildren)) newChildren)))
  /\ (forall oldChildren i,
        Combined.compareChildren (Combined.compareNodes_present diffChars)
          path oldChildren [] i d
        = Return (d ++ List.map
                         (fun jc => Removed (childPath path (fst jc)) (Some (snd jc)))
                         (combine (seq i (List.length oldChildren)) oldChildren)))
  /\ (forall oldNode newNode : node,
        let oldChildren := childNodes_or_empty oldNode in
        let newChildren := childNodes_or_empty newNode in
        let maxLength :=
          Nat.max (List.length oldChildren) (List.length newChildren) in
        Combined.compareNodes diffChars (Some oldNode) (Some newNode) d path
        = (d1 <- Combined.compareValues diffChars oldNode newNode path
                   (Combined.compareTags oldNode newNode path d) ;;
           for_loop maxLength
             (fun i d =>
                Combined.compareNodes diffChars
                  (nth_error oldChildren i) (nth_error newChildren i)
                  d (childPath path i))
             (Combined.compareAttrs_if_present oldNode newNode path d1)))
  /\ (forall oldNode newNode : node,
        let oldChildren := childNodes_or_empty oldNode in
        let newChildren := childNodes_or_empty newNode in
        let m := Nat.min (List.length oldChildren) (List.length newChildren) in
        Combined.compareNodes diffChars (Some oldNode) (Some newNode) d path
        = (d1 <- Combined.compareValues diffChars oldNode newNode path
                   (Combined.compareTags oldNode newNode path d) ;;
           r <- Combined.compareChildren (Combined.compareNodes_present diffChars)
                  path (firstn m oldChildren) (firstn m newChildren) 0
                  (Combined.compareAttrs_if_present oldNode newNode path d1) ;;
           Return (r
                   ++ List.map
                        (fun jc => Removed (childPath path (fst jc)) (Some (snd jc)))
                        (combine (seq m (List.length (skipn m oldChildren)))
                           (skipn m oldChildren))
                   ++ List.map
                        (fun jc => Added (childPath path (fst jc)) (Some (snd jc)))
                        (combine (seq m (List.length (skipn m newChildren)))
                           (skipn m newChildren))))).
Proof.
  split; [reflexivity|]. split; [reflexivity|].
  split; [|split; [|split]].
  - intros nc i. simpl. now rewrite compareRest_app, compareRest_eq.
  - intros oc i. apply compareChildren_new_exhausted.
  - intros o n oc nc m. unfold Combined.compareNodes.
    rewrite compareNodes_present_eq.
    destruct (Combined.compareValues diffChars o n path _) as [d1|e];
      cbn [bind]; [|reflexivity].
    apply compareChildren_for_loop.
  - intros o n oc nc m. unfold Combined.compareNodes.
    rewrite compareNodes_present_eq.
    destruct (Combined.compareValues diffChars o n path _) as [d1|e];
      cbn [bind]; [|reflexivity].
    apply (compareChildren_split (Combined.compareNodes_present diffChars)
             path oc nc 0).
Qed.

(** The tag check pushes [changed] exactly when the names differ and the
    old node is not named [#text]; the new node's name is not tested. *)
Lemma compareTags_spec (o n : node) (path : jsstring) :
  (nodeName o <> nodeName n /\ nodeName o <> js "#text"
   -> Combined.compareTags o n path []
      = [Changed path (nodeName o) (nodeName n)])
  /\ (~ (nodeName o <> nodeName n /\ nodeName o <> js "#text")
      -> Combined.compareTags o n path [] = []).
Proof.
  unfold Combined.compareTags. split.
  - intros [H1 H2]. apply str_eqb_neq in H1, H2. now rewrite H1, H2.
  - intros H.
    destruct (str_eqb (nodeName o) (nodeName n)) eqn:E1; [reflexivity|].
    destruct (str_eqb (nodeName o) (js "#text")) eqn:E2; [reflexivity|].
    exfalso. apply H. split; now apply str_eqb_neq.
Qed.

(** C2.  The code on an element that a text node replaced: the old node
    is the element [<br>], the new node is a text node, and [compareNodes]
    pushes [changed] all the same, [#text] being its [newTag].  The tag
    check tests only the old node's name against [#text]. *)
Theorem changed_reported_against_text_node :
  is_text (Text (js "hello")) = true
  /\ Combined.compareTags (Element (js "br") [] []) (Text (js "hello"))
       (js "0/1/0/0") []
     = [Changed (js "0/1/0/0") (js "br") (js "#text")]
  /\ Combined.compareNodes Sample.diffChars
       (Some (Element (js "br") [] [])) (Some (Text (js "hello")))
       [] (js "0/1/0/0")
     = Return [Changed (js "0/1/0/0") (js "br") (js "#text")].
Proof. repeat split; reflexivity. Qed.

(** The opposite direction at the same place reports nothing. *)
Lemma text_node_against_element_unreported
  (diffChars : jsstring -> jsstring -> list part)
  (d : list difference) (path : jsstring) :
  Combined.compareNodes diffChars
    (Some (Text (js "hello"))) (Some (Element (js "br") [] [])) d path
  = Return d.
Proof. reflexivity. Qed.

(** C1.  The code on a text node replaced by an empty element, in both
    directions, with parse5's trees for the two documents: forward nothing
    is reported, backward the tag check reports a change. *)
Theorem diff_changed_asymmetric
  (diffChars : jsstring -> jsstring -> list part) :
  Combined.diff Sample.parse diffChars
    (VString (js "<div>hello</div>")) (VString (js "<div><br></div>"))
  = Return (Result false [])
  /\ Combined.diff Sample.parse diffChars
       (VString (js "<div><br></div>")) (VString (js "<div>hello</div>"))
     = Return (Result true [Changed (js "0/1/0/0") (js "br") (js "#text")]).
Proof. split; reflexivity. Qed.

(** ** Totality *)

Section Totality.
Variable diffChars : jsstring -> jsstring -> list part.

Lemma compareValues_returns (o n : node) (path : jsstring)
  (d : list difference) :
  text_has_value o = true -> text_has_value n = true ->
  exists r, Combined.compareValues diffChars o n path d = Return r.
Proof.
  intros Ho Hn. unfold Combined.compareValues.
  destruct (str_eqb (nodeName o) (js "#text")) eqn:Eo; simpl; [|eauto].
  destruct (str_eqb (nodeName n) (js "#text")) eqn:En; simpl; [|eauto].
  destruct (text_has_value_named o Ho Eo) as [v ->].
  destruct (text_has_value_named n Hn En) as [w ->]. simpl.
  destruct (negb _); eauto.
Qed.

Lemma compareChildren_returns
  (compare : node -> node -> list difference -> jsstring
             -> completion (list difference))
  (path : jsstring) (oc nc : list node) (i : nat) (d : list difference) :
  Forall (fun o => forall n d p,
            text_has_value o = true -> text_has_value n = true ->
            exists r, compare o n d p = Return r) oc ->
  forallb text_has_value oc = true ->
  forallb text_has_value nc = true ->
  exists r, Combined.compareChildren compare path oc nc i d = Return r.
Proof.
  intros H; revert nc i d; induction H as [|o oc Ho _ IH]; intros nc i d Hoc Hnc.
  - simpl; eauto.
  - simpl in Hoc. apply andb_prop in Hoc as [Hwo Hoc].
    destruct nc as [|n nc]; simpl.
    + apply IH; auto.
    + simpl in Hnc. apply andb_prop in Hnc as [Hwn Hnc].
      destruct (Ho n d (childPath path i) Hwo Hwn) as [d' ->]. simpl.
      apply IH; auto.
Qed.

Lemma compareNodes_present_returns (o n : node) (d : list difference)
  (path : jsstring) :
  text_has_value o = true -> text_has_value n = true ->
  exists r, Combined.compareNodes_present diffChars o n d path = Return r.
Proof.
  revert n d path.
  assert (step : forall o,
    Forall (fun o => forall n d p,
              text_has_value o = true -> text_has_value n = true ->
              exists r, Combined.compareNodes_present diffChars o n d p = Return r)
      (childNodes_or_empty o) ->
    forall n d path,
      text_has_value o = true -> text_has_value n = true ->
      exists r, Combined.compareNodes_present diffChars o n d path = Return r).
  { clear o. intros o Hc n d path Ho Hn.
    rewrite compareNodes_present_eq.
    destruct (compareValues_returns o n path (Combined.compareTags o n path d)
                Ho Hn) as [d1 ->]. simpl.
    apply compareChildren_returns; auto using text_has_value_children. }
  induction o using node_forall_ind; apply step; simpl; auto.
Qed.
End Totality.

(** ** The sample collaborators meet the assumptions *)

Lemma sample_parser_well_formed : well_formed_parser Sample.parse.
Proof.
  intros s. unfold Sample.parse.
  repeat (match goal with |- context [if ?c then _ else _] => destruct c end;
          [reflexivity|]).
  now destruct s.
Qed.

Lemma sample_diffChars_edit_script : edit_script Sample.diffChars.
Proof.
  intros a b. unfold Sample.diffChars.
  destruct (str_eqb a b) eqn:E.
  - apply str_eqb_eq in E; subst b.
    destruct a; unfold old_side, new_side; simpl; rewrite ?app_nil_r; auto.
  - destruct a, b; unfold old_side, new_side; simpl; rewrite ?app_nil_r; auto.
Qed.

(** ** The entry point [diff] *)

(** An edit script without an added or removed part describes no change. *)
Lemma unchanged_parts_same_sides (parts : list part) :
  existsb part_changed parts = false -> old_side parts = new_side parts.
Proof.
  unfold old_side, new_side.
  induction parts as [|p parts IH]; simpl; [reflexivity|].
  intros H. apply orb_false_elim in H as [Hp H].
  unfold part_changed in Hp. apply orb_false_elim in Hp as [Ha Hr].
  rewrite Ha, Hr. simpl. unfold join in *. simpl. now rewrite (IH H).
Qed.

Lemma edit_script_reports_change
  (diffChars : jsstring -> jsstring -> list part) (a b : jsstring) :
  edit_script diffChars -> a <> b ->
  existsb part_changed (diffChars a b) = true.
Proof.
  intros H Hab. destruct (existsb _ _) eqn:E; [reflexivity|].
  exfalso. apply Hab. destruct (H a b) as [Ha Hb].
  apply unchanged_parts_same_sides in E. congruence.
Qed.

(** [diff] reports a change only for two strings. *)
Lemma diff_changed_strings (parse : jsstring -> node)
  (diffChars : jsstring -> jsstring -> list part)
  (oldContent newContent : jsvalue) (r : DiffResult) :
  Combined.diff parse diffChars oldContent newContent = Return r ->
  changed r = true ->
  exists a b, oldContent = VString a /\ newContent = VString b.
Proof.
  unfold Combined.diff, Combined.compareHTML, Combined.compareText.
  destruct (_ || _).
  - destruct oldContent as [| |a]; simpl; try discriminate.
    destruct newContent as [| |b]; simpl; try discriminate. eauto.
  - destruct oldContent as [| |a], newContent as [| |b]; simpl;
      try discriminate; try (intros [= <-]; discriminate). eauto.
Qed.

(** C4.  [diff(X, X)] is [{changed: false, differences: []}] for every
    string [X], and so is [diff(A, B)] whenever the router takes the HTML
    path and the two inputs are equal after [normalizeHtml]. *)
Theorem diff_same_content (parse : jsstring -> node)
  (diffChars : jsstring -> jsstring -> list part) :
  (forall X,
     Combined.diff parse diffChars (VString X) (VString X)
     = Return (Result false []))
  /\ (forall A B,
        htmlRegex_test A || htmlRegex_test B = true ->
        Combined.normalizeHtml (VString A) = Combined.normalizeHtml (VString B) ->
        Combined.diff parse diffChars (VString A) (VString B)
        = Return (Result false [])).
Proof.
  split.
  - intros X. unfold Combined.diff, Combined.compareHTML, Combined.compareText.
    simpl. rewrite !str_eqb_refl. now destruct (_ || _).
  - intros A B Hhtml Hnorm. unfold Combined.diff. simpl ToString.
    rewrite Hhtml. unfold Combined.compareHTML.
    simpl in *. injection Hnorm as ->. now rewrite str_eqb_refl.
Qed.

Lemma diff_same_content_witness :
  htmlRegex_test (js "<ul> <li>a</li> </ul> ")
  || htmlRegex_test (js "<ul><li>a</li></ul>") = true
  /\ Combined.normalizeHtml (VString (js "<ul> <li>a</li> </ul> "))
     = Combined.normalizeHtml (VString (js "<ul><li>a</li></ul>"))
  /\ Combined.diff Sample.parse Sample.diffChars
       (VString (js "<ul> <li>a</li> </ul> ")) (VString (js "<ul><li>a</li></ul>"))
     = Return (Result false []).
Proof.
  split; [reflexivity|]. split; [reflexivity|].
  apply (proj2 (diff_same_content Sample.parse Sample.diffChars));
    reflexivity.
Defined.

(** C6.  In every result [diff] returns, on the HTML path and on the text
    path, [changed] is false exactly when [differences] is empty
    ([diffChars] answering with an edit script). *)
Theorem changed_iff_differences (parse : jsstring -> node)
  (diffChars : jsstring -> jsstring -> list part)
  (oldContent newContent : jsvalue) (r : DiffResult) :
  edit_script diffChars ->
  Combined.diff parse diffChars oldContent newContent = Return r ->
  (changed r = false <-> differences r = []).
Proof.
  intros Hscript. unfold Combined.diff.
  destruct (_ || _).
  - unfold Combined.compareHTML.
    destruct (Combined.normalizeHtml oldContent) as [a|e]; simpl; [|discriminate].
    destruct (Combined.normalizeHtml newContent) as [b|e]; simpl; [|discriminate].
    destruct (str_eqb a b).
    + intros [= <-]; simpl; tauto.
    + match goal with
      | |- context [bind ?c _] => destruct c as [d|e]; simpl; [|discriminate]
      end.
      intros [= <-]; destruct d; cbn; split; congruence.
  - unfold Combined.compareText.
    destruct (strict_eq oldContent newContent) eqn:E.
    + intros [= <-]; simpl; tauto.
    + destruct oldContent as [| |a], newContent as [| |b]; simpl;
        try discriminate.
      intros [= <-]; simpl. simpl in E. apply str_eqb_neq in E.
      rewrite (edit_script_reports_change diffChars a b Hscript E).
      split; discriminate.
Qed.

Lemma changed_iff_differences_witness :
  edit_script Sample.diffChars
  /\ Combined.diff Sample.parse Sample.diffChars
       (VString (js "kitten")) (VString (js "sitting"))
     = Return (Result true
                 [TextDifference None
                    [Change SegRemoved (js "kitten"); Change SegAdded (js "sitting")]])
  /\ (changed (Result true
                 [TextDifference None
                    [Change SegRemoved (js "kitten"); Change SegAdded (js "sitting")]])
      = false
      <-> differences (Result true
                 [TextDifference None
                    [Change SegRemoved (js "kitten"); Change SegAdded (js "sitting")]])
          = []).
Proof.
  split; [exact sample_diffChars_edit_script|]. split; [reflexivity|].
  apply (changed_iff_differences Sample.parse Sample.diffChars
           (VString (js "kitten")) (VString (js "sitting")) _
           sample_diffChars_edit_script).
  reflexivity.
Defined.

(** C3, as the code has it.  On two strings [diff] returns a result (the
    parser building well-formed trees); two empty strings, two [null]s and
    two [undefined]s give [{changed: false, differences: []}]. *)
Theorem diff_total_on_strings (parse : jsstring -> node)
  (diffChars : jsstring -> jsstring -> list part) :
  well_formed_parser parse ->
  (forall a b,
     exists r, Combined.diff parse diffChars (VString a) (VString b) = Return r)
  /\ Combined.diff parse diffChars (VString []) (VString []) = Return (Result false [])
  /\ Combined.diff parse diffChars VNull VNull = Return (Result false [])
  /\ Combined.diff parse diffChars VUndefined VUndefined = Return (Result false []).
Proof.
  intros Hwf. repeat split; try reflexivity.
  intros a b. unfold Combined.diff. destruct (_ || _).
  - unfold Combined.compareHTML. simpl.
    destruct (str_eqb _ _); [eauto|].
    match goal with
    | |- context [Combined.compareNodes_present ?f ?o ?n ?d ?p] =>
        destruct (compareNodes_present_returns f o n d p (Hwf _) (Hwf _))
          as [r ->]
    end.
    simpl; eauto.
  - unfold Combined.compareText. simpl. destruct (str_eqb a b); simpl; eauto.
Qed.

Lemma diff_total_on_strings_witness :
  well_formed_parser Sample.parse
  /\ exists r,
       Combined.diff Sample.parse Sample.diffChars
         (VString (js "<p>a</p>")) (VString (js "<p>b</p>")) = Return r.
Proof.
  split; [exact sample_parser_well_formed|].
  exact (proj1 (diff_total_on_strings Sample.parse Sample.diffChars
                  sample_parser_well_formed)
           (js "<p>a</p>") (js "<p>b</p>")).
Defined.

(** C3 as stated fails: an absent input next to markup makes [diff]
    throw, from [html.replace] in [normalizeHtml]. *)
Lemma diff_absent_input_throws :
  Combined.diff Sample.parse Sample.diffChars
    VNull (VString (js "<div>hello</div>"))
  = Throw TypeError.
Proof. reflexivity. Qed.

(** An empty string next to text is a change, with one difference. *)
Lemma diff_empty_against_text :
  Combined.diff Sample.parse Sample.diffChars (VString []) (VString (js "a"))
  = Return (Result true [TextDifference None [Change SegAdded (js "a")]]).
Proof. reflexivity. Qed.

(** ** The preview *)

(** C8.  Whenever [diff] reports [changed: false], [renderDiffPreview]
    returns the old content between the container's opening and closing
    tag, character for character: no parse, no spans. *)
Theorem renderDiffPreview_unchanged (parse : jsstring -> node)
  (diffChars : jsstring -> jsstring -> list part)
  (oldContent newContent : jsvalue) (r : DiffResult) :
  Combined.diff parse diffChars oldContent newContent = Return r ->
  changed r = false ->
  Preview.renderDiffPreview parse diffChars oldContent newContent
  = Return (js "<div class=" ++ dquote ++ js "diff-preview" ++ dquote ++ js ">"
            ++ ToString oldContent ++ js "</div>").
Proof.
  intros Hdiff Hunchanged. unfold Preview.renderDiffPreview.
  rewrite Hdiff. simpl bind. now rewrite Hunchanged.
Qed.

Lemma renderDiffPreview_unchanged_witness :
  Combined.diff Sample.parse Sample.diffChars
    (VString (js "<p> a &amp; b </p>  <hr>")) (VString (js "<p> a &amp; b </p><hr>"))
  = Return (Result false [])
  /\ Preview.renderDiffPreview Sample.parse Sample.diffChars
       (VString (js "<p> a &amp; b </p>  <hr>")) (VString (js "<p> a &amp; b </p><hr>"))
     = Return (js "<div class=" ++ dquote ++ js "diff-preview" ++ dquote ++ js ">"
               ++ js "<p> a &amp; b </p>  <hr>" ++ js "</div>").
Proof.
  split; [reflexivity|].
  apply (renderDiffPreview_unchanged Sample.parse Sample.diffChars
           (VString (js "<p> a &amp; b </p>  <hr>"))
           (VString (js "<p> a &amp; b </p><hr>")) (Result false []));
    reflexivity.
Defined.

(** *** Escaping *)

Lemma replace_char_flat_map (c : N) (r : jsstring) (f : N -> jsstring)
  (s : jsstring) :
  replace_char c r (flat_map f s) = flat_map (fun x => replace_char c r (f x)) s.
Proof.
  unfold replace_char. induction s as [|x s IH]; simpl; [reflexivity|].
  now rewrite flat_map_app, IH.
Qed.

Lemma flat_map_pointwise {A B : Type} (f g : A -> list B) (l : list A) :
  (forall a, f a = g a) -> flat_map f l = flat_map g l.
Proof.
  intros H; induction l as [|a l IH]; simpl; [reflexivity | now rewrite H, IH].
Qed.

(** The five replacements never rewrite each other's output: together
    they act on each code unit of the input separately. *)
Lemma escapeHtml_by_char (text : jsstring) :
  Preview.escapeHtml text = flat_map escape_char text.
Proof.
  unfold Preview.escapeHtml.
  unfold replace_char at 5. rewrite !replace_char_flat_map.
  apply flat_map_pointwise. intros c. unfold escape_char.
  destruct (N.eqb_spec c AMP) as [->|H1]; [reflexivity|].
  destruct (N.eqb_spec c LT) as [->|H2]; [reflexivity|].
  destruct (N.eqb_spec c GT) as [->|H3].
  { reflexivity. }
  destruct (N.eqb_spec c QUOT) as [->|H4].
  { reflexivity. }
  destruct (N.eqb_spec c APOS) as [->|H5].
  { reflexivity. }
  unfold replace_char; simpl.
  apply N.eqb_neq in H2, H3, H4, H5.
  rewrite H2; simpl. rewrite H3; simpl. rewrite H4; simpl. now rewrite H5.
Qed.

Lemma escape_char_cases (c : N) :
  (escape_char c = [c] /\ c <> AMP /\ c <> LT /\ c <> GT /\ c <> QUOT /\ c <> APOS)
  \/ In (escape_char c) entities.
Proof.
  unfold escape_char, entities.
  destruct (N.eqb_spec c AMP); [right; simpl; tauto|].
  destruct (N.eqb_spec c LT); [right; simpl; tauto|].
  destruct (N.eqb_spec c GT); [right; simpl; tauto|].
  destruct (N.eqb_spec c QUOT); [right; simpl; tauto|].
  destruct (N.eqb_spec c APOS); [right; simpl; tauto|].
  left; tauto.
Qed.

Lemma markup_free_app (a b : jsstring) :
  markup_free (a ++ b) = markup_free a && markup_free b.
Proof. apply forallb_app. Qed.

Lemma escapeHtml_markup_free (text : jsstring) :
  markup_free (Preview.escapeHtml text) = true.
Proof.
  rewrite escapeHtml_by_char.
  induction text as [|c text IH]; simpl; [reflexivity|].
  rewrite markup_free_app, IH, andb_true_r.
  destruct (escape_char_cases c) as [(-> & _ & H2 & H3 & H4 & H5)|H].
  - unfold markup_free; simpl.
    apply N.eqb_neq in H2, H3, H4, H5. now rewrite H2, H3, H4, H5.
  - simpl in H.
    destruct H as [<-|[<-|[<-|[<-|[<-|[]]]]]]; reflexivity.
Qed.

Lemma escapeHtml_ampersands (text : jsstring) :
  ampersands_start_entities (Preview.escapeHtml text) = true.
Proof.
  rewrite escapeHtml_by_char.
  induction text as [|c text IH]; simpl; [reflexivity|].
  destruct (escape_char_cases c) as [(-> & H1 & _)|H].
  - simpl. apply N.eqb_neq in H1. now rewrite H1, IH.
  - simpl in H.
    destruct H as [<-|[<-|[<-|[<-|[<-|[]]]]]]; cbn; now rewrite IH.
Qed.

(** C10.  [escapeHtml] leaves no [<], [>], double quote or apostrophe, and
    every [&] of its output starts one of its five entities.  The renderer
    writes a text node through it, either whole or change by change inside
    the spans, so a text run brings no markup; an element's opening tag is
    built from the attribute values as they are. *)
Theorem escapeHtml_safe :
  (forall text,
     markup_free (Preview.escapeHtml text) = true
     /\ ampersands_start_entities (Preview.escapeHtml text) = true)
  /\ (forall diffMap v path,
        Preview.renderNode diffMap (Text v) path =
        match InsertionMap.get Preview.key_eqb (Some path) diffMap with
        | Some (TextDifference _ changes) =>
            Return (join (List.map
                            (fun c => js "<span class=" ++ dquote ++ js "diff-"
                                      ++ changeType_string (type c) ++ dquote
                                      ++ js ">" ++ Preview.escapeHtml (content c)
                                      ++ js "</span>")
                            changes))
        | _ => Return (Preview.escapeHtml v)
        end)
  /\ (forall diffMap t a c path s,
        str_eqb t (js "#text") = false ->
        str_eqb t (js "#document") = false ->
        str_eqb t (js "#document-fragment") = false ->
        Preview.renderNode diffMap (Element t a c) path = Return s ->
        exists children,
          s = js "<" ++ t
              ++ join (List.map (fun x => js " " ++ name x ++ js "=" ++ dquote
                                          ++ attr_value x ++ dquote) a)
              ++ js ">" ++ children ++ js "</" ++ t ++ js ">").
Proof.
  split; [|split].
  - intros text. split;
      [apply escapeHtml_markup_free | apply escapeHtml_ampersands].
  - intros diffMap v path. simpl.
    destruct (InsertionMap.get _ _ _) as [[]|]; reflexivity.
  - intros diffMap t a c path s Ht Hd Hf. simpl. rewrite Ht, Hd, Hf. simpl.
    destruct (Preview.inspect_type _); simpl; [|discriminate].
    destruct (Preview.renderChildren _ _ _ _) as [cs|e]; simpl; [|discriminate].
    intros [= <-]. now exists (join cs).
Qed.

Lemma escapeHtml_safe_witness :
  Preview.renderNode []
    (Element (js "a") [Attr (js "title") (js "<b>&")] [Text (js "<b>&")]) []
  = Return (js "<a title=" ++ dquote ++ js "<b>&" ++ dquote
            ++ js ">&lt;b&gt;&amp;</a>")
  /\ exists children,
       js "<a title=" ++ dquote ++ js "<b>&" ++ dquote ++ js ">&lt;b&gt;&amp;</a>"
       = js "<" ++ js "a"
         ++ join (List.map (fun x => js " " ++ name x ++ js "=" ++ dquote
                                     ++ attr_value x ++ dquote)
                    [Attr (js "title") (js "<b>&")])
         ++ js ">" ++ children ++ js "</" ++ js "a" ++ js ">".
Proof.
  split; [reflexivity|].
  apply (proj2 (proj2 escapeHtml_safe) []
           (js "a") [Attr (js "title") (js "<b>&")] [Text (js "<b>&")] []);
    reflexivity.
Defined.

(** ** seperated.js against combined.js *)

Lemma both_complete_bind {A B A' B' : Type} (R : A -> B -> Prop)
  (R' : A' -> B' -> Prop) (x : completion A) (y : completion B)
  (f : A -> completion A') (g : B -> completion B') :
  both_complete R x y ->
  (forall a b, R a b -> both_complete R' (f a) (g b)) ->
  both_complete R' (bind x f) (bind y g).
Proof.
  destruct x, y; simpl; intros H K; try contradiction; auto.
Qed.

Lemma fold_left_related {A B E : Type} (R : A -> B -> Prop)
  (f : A -> E -> A) (g : B -> E -> B) (l : list E) (a : A) (b : B) :
  (forall a b e, R a b -> R (f a e) (g b e)) ->
  R a b -> R (fold_left f l a) (fold_left g l b).
Proof.
  intros H; revert a b; induction l as [|e l IH]; intros a b Hab; simpl; auto.
Qed.

Lemma partition_push_structural (d : list difference) (a : Separated.arrays)
  (x : Separated.structuralDifference) :
  partition_of d a ->
  partition_of (d ++ [tag_structural x]) (Separated.push_structural x a).
Proof.
  intros [Hs Ht]. unfold partition_of, Separated.push_structural; simpl.
  rewrite !filter_app, map_app, Hs, Ht.
  destruct x; simpl; now rewrite app_nil_r.
Qed.

Lemma partition_push_text (d : list difference) (a : Separated.arrays)
  (x : Separated.textDifference) :
  partition_of d a ->
  partition_of (d ++ [tag_text x]) (Separated.push_text x a).
Proof.
  intros [Hs Ht]. unfold partition_of, Separated.push_text; simpl.
  rewrite !filter_app, map_app, Hs, Ht. simpl. now rewrite app_nil_r.
Qed.

Section SeparatedAgainstCombined.
Variable diffChars : jsstring -> jsstring -> list part.

Lemma compareTags_related (o n : node) (path : jsstring)
  (d : list difference) (a : Separated.arrays) :
  partition_of d a ->
  partition_of (Combined.compareTags o n path d)
    (Separated.compareTags o n path a).
Proof.
  intros H. unfold Combined.compareTags, Separated.compareTags.
  destruct (_ && _); [|exact H].
  apply (partition_push_structural d a (Separated.Changed _ _ _) H).
Qed.

Lemma compareValues_related (o n : node) (path : jsstring)
  (d : list difference) (a : Separated.arrays) :
  partition_of d a ->
  both_complete partition_of
    (Combined.compareValues diffChars o n path d)
    (Separated.compareValues diffChars o n path a).
Proof.
  intros H. unfold Combined.compareValues, Separated.compareValues.
  destruct (_ && _); [|exact H].
  destruct (trim_of (value o)); simpl; [|reflexivity].
  destruct (trim_of (value n)); simpl; [|reflexivity].
  destruct (negb _); simpl; [|exact H].
  apply (partition_push_text d a (Separated.TextDiff _ _) H).
Qed.

Lemma compareAttrs_related (o n : node) (path : jsstring)
  (d : list difference) (a : Separated.arrays) :
  partition_of d a ->
  partition_of (Combined.compareAttrs_if_present o n path d)
    (Separated.compareAttrs_if_present o n path a).
Proof.
  intros H.
  unfold Combined.compareAttrs_if_present, Separated.compareAttrs_if_present.
  destruct (attrs o) as [oa|], (attrs n) as [na|]; try exact H.
  unfold Combined.compareAttrs, Separated.compareAttrs.
  apply fold_left_related.
  { intros d' a' e H'. destruct (negb _); [|exact H'].
    apply (partition_push_structural d' a' (Separated.AttributeAdded _ _ _) H'). }
  apply fold_left_related; [|exact H].
  intros d' a' e H'. destruct (InsertionMap.get _ _ _).
  - destruct (negb _); [|exact H'].
    apply (partition_push_structural d' a'
             (Separated.AttributeChanged _ _ _ _) H').
  - apply (partition_push_structural d' a'
             (Separated.AttributeRemoved _ _ _) H').
Qed.

Lemma compareRest_related (path : jsstring) (nc : list node) (i : nat)
  (d : list difference) (a : Separated.arrays) :
  partition_of d a ->
  partition_of (Combined.compareRest path nc i d)
    (Separated.compareRest path nc i a).
Proof.
  revert i d a; induction nc as [|c nc IH]; intros i d a H; simpl; [exact H|].
  apply IH.
  apply (partition_push_structural d a (Separated.Added _ _) H).
Qed.

Lemma compareChildren_related
  (compare : node -> node -> list difference -> jsstring
             -> completion (list difference))
  (compare' : node -> node -> Separated.arrays -> jsstring
              -> completion Separated.arrays)
  (path : jsstring) (oc nc : list node) (i : nat)
  (d : list difference) (a : Separated.arrays) :
  Forall (fun o => forall n d a p,
            partition_of d a ->
            both_complete partition_of (compare o n d p) (compare' o n a p))
    oc ->
  partition_of d a ->
  both_complete partition_of
    (Combined.compareChildren compare path oc nc i d)
    (Separated.compareChildren compare' path oc nc i a).
Proof.
  intros Hc; revert nc i d a; induction Hc as [|o oc Ho _ IH];
    intros nc i d a H.
  - simpl. now apply compareRest_related.
  - destruct nc as [|n nc]; simpl.
    + apply IH.
      apply (partition_push_structural d a (Separated.Removed _ _) H).
    + apply both_complete_bind with (R := partition_of); [now apply Ho|].
      intros d' a' H'. now apply IH.
Qed.

Lemma separated_compareNodes_present_eq (o n : node) (a : Separated.arrays)
  (path : jsstring) :
  Separated.compareNodes_present diffChars o n a path =
  (a1 <- Separated.compareValues diffChars o n path
           (Separated.compareTags o n path a) ;;
   Separated.compareChildren (Separated.compareNodes_present diffChars) path
     (childNodes_or_empty o) (childNodes_or_empty n) 0
     (Separated.compareAttrs_if_present o n path a1)).
Proof. destruct o; reflexivity. Qed.

Lemma compareNodes_present_related (o n : node) (path : jsstring)
  (d : list difference) (a : Separated.arrays) :
  partition_of d a ->
  both_complete partition_of
    (Combined.compareNodes_present diffChars o n d path)
    (Separated.compareNodes_present diffChars o n a path).
Proof.
  revert n path d a.
  assert (step : forall o,
    Forall (fun o => forall n d a p,
              partition_of d a ->
              both_complete partition_of
                (Combined.compareNodes_present diffChars o n d p)
                (Separated.compareNodes_present diffChars o n a p))
      (childNodes_or_empty o) ->
    forall n path d a,
      partition_of d a ->
      both_complete partition_of
        (Combined.compareNodes_present diffChars o n d path)
        (Separated.compareNodes_present diffChars o n a path)).
  { clear o. intros o Hc n path d a H.
    rewrite compareNodes_present_eq, separated_compareNodes_present_eq.
    apply both_complete_bind with (R := partition_of).
    - apply compareValues_related, compareTags_related, H.
    - intros d1 a1 H1. apply compareChildren_related; [exact Hc|].
      now apply compareAttrs_related. }
  induction o using node_forall_ind; intros; apply step; simpl; auto.
  all: eapply Forall_impl; [|eassumption]; simpl; intros; auto.
Qed.
End SeparatedAgainstCombined.

Lemma partition_nonempty (d : list difference) (a : Separated.arrays) :
  partition_of d a ->
  (0 <? List.length (fst a)) || (0 <? List.length (snd a))
  = (0 <? List.length d).
Proof.
  intros [Hs Ht].
  apply (f_equal (@List.length _)) in Hs, Ht. rewrite length_map in Hs, Ht.
  rewrite Hs, Ht. destruct d as [|x d]; [reflexivity|].
  destruct x; cbn; rewrite ?orb_true_r; reflexivity.
Qed.

(** C9.  On every pair of inputs the two [compareHTML]s end alike: both
    throw, or the separated lists are the structural and the textual
    entries of the combined list, each in the combined list's order, and
    the two [changed] flags agree. *)
Theorem separated_is_partition (parse : jsstring -> node)
  (diffChars : jsstring -> jsstring -> list part)
  (oldHtml newHtml : jsvalue) :
  match Combined.compareHTML parse diffChars oldHtml newHtml,
        Separated.compareHTML parse diffChars oldHtml newHtml with
  | Return c, Return s =>
      List.map tag_structural (Separated.structuralDifferences s)
      = filter is_structural (differences c)
      /\ List.map tag_text (Separated.textDifferences s)
         = filter is_textual (differences c)
      /\ Separated.changed s = changed c
  | Throw e, Throw e' => e = e'
  | _, _ => False
  end.
Proof.
  unfold Combined.compareHTML, Separated.compareHTML.
  change (Separated.normalizeHtml) with (Combined.normalizeHtml).
  destruct (Combined.normalizeHtml oldHtml) as [a|e]; simpl; [|reflexivity].
  destruct (Combined.normalizeHtml newHtml) as [b|e]; simpl; [|reflexivity].
  destruct (str_eqb a b); [simpl; auto|].
  pose proof (compareNodes_present_related diffChars (parse a) (parse b) []
                [] ([], []) (conj eq_refl eq_refl)) as H.
  destruct (Combined.compareNodes_present _ _ _ _ _) as [d|e],
           (Separated.compareNodes_present _ _ _ _ _) as [s|e'];
    simpl in *; try contradiction; auto.
  destruct H as [Hs Ht]. repeat split; auto.
  now apply partition_nonempty.
Qed.

(** ** Maps in insertion order *)

Section MapFacts.
Variables (K V : Type) (eqb : K -> K -> bool).
Hypothesis eqb_eq : forall a b, eqb a b = true <-> a = b.

Local Abbreviation get := (InsertionMap.get (V := V) eqb).
Local Abbreviation set := (InsertionMap.set (V := V) eqb).
Local Abbreviation keys := (InsertionMap.keys (K := K) (V := V)).

Lemma key_eqb_refl (a : K) : eqb a a = true.
Proof. now apply eqb_eq. Qed.

Lemma get_None_keys (k : K) (m : InsertionMap.t K V) :
  get k m = None <-> ~ In k (keys m).
Proof.
  induction m as [|[k' v'] m IH]; simpl; [tauto|].
  destruct (eqb k' k) eqn:E.
  - apply eqb_eq in E. subst. split; [discriminate | tauto].
  - rewrite IH. split; [|tauto].
    intros H [->|H']; [rewrite key_eqb_refl in E; discriminate | tauto].
Qed.

Lemma get_Some_In (k : K) (v : V) (m : InsertionMap.t K V) :
  get k m = Some v -> In (k, v) m.
Proof.
  induction m as [|[k' v'] m IH]; simpl; [discriminate|].
  destruct (eqb k' k) eqn:E.
  - apply eqb_eq in E. intros [= ->]. subst. now left.
  - intros H; right; auto.
Qed.

Lemma In_get_Some (k : K) (v : V) (m : InsertionMap.t K V) :
  NoDup (keys m) -> In (k, v) m -> get k m = Some v.
Proof.
  induction m as [|[k' v'] m IH]; simpl; [tauto|].
  intros Hnd [[= -> ->]|Hin].
  - now rewrite key_eqb_refl.
  - inversion Hnd as [|? ? Hk' Hnd']; subst.
    destruct (eqb k' k) eqn:E; [|auto].
    apply eqb_eq in E; subst. exfalso. apply Hk'.
    change k with (fst (k, v)). now apply in_map.
Qed.

Lemma keys_set (k : K) (v : V) (m : InsertionMap.t K V) :
  keys (set k v m) = if InsertionMap.has eqb k m then keys m else keys m ++ [k].
Proof.
  unfold InsertionMap.has. fold get.
  induction m as [|[k' v'] m IH]; simpl; [reflexivity|].
  destruct (eqb k' k) eqn:E; simpl; [reflexivity|].
  fold set. fold keys. rewrite IH. fold get. now destruct (get k m).
Qed.

Lemma NoDup_keys_set (k : K) (v : V) (m : InsertionMap.t K V) :
  NoDup (keys m) -> NoDup (keys (set k v m)).
Proof.
  intros H. rewrite keys_set. unfold InsertionMap.has. fold get.
  destruct (get k m) eqn:E; [exact H|].
  apply get_None_keys in E.
  apply NoDup_app; [exact H | repeat constructor; auto |].
  intros x Hx [<-|[]]. contradiction.
Qed.

Lemma NoDup_keys_of_entries (entries : list (K * V)) :
  NoDup (keys (InsertionMap.of_entries eqb entries)).
Proof.
  unfold InsertionMap.of_entries.
  assert (G : forall m, NoDup (keys m) ->
              NoDup (keys (fold_left (fun m kv => InsertionMap.set eqb (fst kv) (snd kv) m)
                             entries m))).
  { induction entries as [|e entries IH]; intros m Hm; simpl; [exact Hm|].
    apply IH. now apply NoDup_keys_set. }
  apply G. constructor.
Qed.
End MapFacts.

(** ** The attribute comparison *)

Section AttributeComparison.
Variables (path : jsstring) (oa na : list attr).

Local Abbreviation oldAttrs := (Combined.attrMap oa).
Local Abbreviation newAttrs := (Combined.attrMap na).
Local Abbreviation get := (InsertionMap.get (V := jsstring) str_eqb).
Local Abbreviation keys := (InsertionMap.keys (K := jsstring) (V := jsstring)).

Lemma NoDup_keys_attrMap (a : list attr) : NoDup (keys (Combined.attrMap a)).
Proof. apply NoDup_keys_of_entries, str_eqb_eq. Qed.

Lemma compareAttrs_two_passes :
  Combined.compareAttrs path oa na [] =
  flat_map (old_pass path newAttrs) oldAttrs
  ++ flat_map (new_pass path oldAttrs) newAttrs.
Proof. now rewrite compareAttrs_passes. Qed.

Lemma old_pass_names (l : list (jsstring * jsstring)) :
  Forall (fun e => get (fst e) oldAttrs = Some (snd e)) l ->
  List.map attribute_of (flat_map (old_pass path newAttrs) l) =
  List.map Some (filter (differs_in_new oldAttrs newAttrs) (List.map fst l)).
Proof.
  induction 1 as [|[k v] l Hk _ IH]; simpl; [reflexivity|].
  rewrite map_app, IH. unfold old_pass, differs_in_new. simpl in *.
  fold get. rewrite Hk.
  destruct (get k newAttrs) as [w|]; [|reflexivity].
  now destruct (negb (str_eqb w v)).
Qed.

Lemma new_pass_names (l : list (jsstring * jsstring)) :
  List.map attribute_of (flat_map (new_pass path oldAttrs) l) =
  List.map Some
    (filter (fun k => negb (InsertionMap.has str_eqb k oldAttrs)) (List.map fst l)).
Proof.
  induction l as [|[k v] l IH]; simpl; [reflexivity|].
  rewrite map_app, IH. unfold new_pass. simpl.
  now destruct (negb _).
Qed.

Lemma entries_get (m : InsertionMap.t jsstring jsstring) :
  NoDup (keys m) -> Forall (fun e => get (fst e) m = Some (snd e)) m.
Proof.
  intros H. apply Forall_forall. intros [k v] Hin.
  now apply (In_get_Some _ _ _ str_eqb_eq).
Qed.

Lemma compareAttrs_names :
  List.map attribute_of (Combined.compareAttrs path oa na []) =
  List.map Some (filter (differs_in_new oldAttrs newAttrs) (keys oldAttrs))
  ++ List.map Some
       (filter (fun k => negb (InsertionMap.has str_eqb k oldAttrs))
          (keys newAttrs)).
Proof.
  rewrite compareAttrs_two_passes, map_app.
  rewrite old_pass_names by apply entries_get, NoDup_keys_attrMap.
  now rewrite new_pass_names.
Qed.

Lemma compareAttrs_one_per_key :
  NoDup (List.map attribute_of (Combined.compareAttrs path oa na [])).
Proof.
  rewrite compareAttrs_names.
  assert (inj : forall l : list jsstring, NoDup l -> NoDup (List.map Some l)).
  { induction 1 as [|x l Hx _ IH]; simpl; constructor; [|exact IH].
    intros H. apply in_map_iff in H as (y & [= ->] & H). contradiction. }
  apply NoDup_app.
  - apply inj, NoDup_filter, NoDup_keys_attrMap.
  - apply inj, NoDup_filter, NoDup_keys_attrMap.
  - intros x H1 H2.
    apply in_map_iff in H1 as (k & <- & H1), H2 as (k' & [= ->] & H2).
    apply filter_In in H1 as [H1 _], H2 as [_ H2].
    unfold InsertionMap.has in H2.
    destruct (InsertionMap.get str_eqb k oldAttrs) eqn:E; [discriminate|].
    now apply (get_None_keys _ _ _ str_eqb_eq) in E.
Qed.

Lemma removed_iff (k v : jsstring) :
  In (AttributeRemoved path k v) (Combined.compareAttrs path oa na []) <->
  get k oldAttrs = Some v /\ get k newAttrs = None.
Proof.
  rewrite compareAttrs_two_passes, in_app_iff, !in_flat_map. split.
  - intros [([k' v'] & Hin & Hx)|([k' v'] & Hin & Hx)].
    + unfold old_pass in Hx; simpl in Hx. fold get in Hx.
      destruct (get k' newAttrs) as [w|] eqn:E.
      * destruct (negb _); simpl in Hx; [|tauto].
        destruct Hx as [Hx|[]]; discriminate.
      * destruct Hx as [[= <- <-]|[]]. split; [|exact E].
        now apply (In_get_Some _ _ _ str_eqb_eq), Hin; apply NoDup_keys_attrMap.
    + unfold new_pass in Hx. destruct (negb _); simpl in Hx; [|tauto].
      destruct Hx as [Hx|[]]; discriminate.
  - intros [Ho Hn]. left. exists (k, v). split.
    + now apply (get_Some_In _ _ _ str_eqb_eq).
    + unfold old_pass; simpl. fold get. rewrite Hn. now left.
Qed.

Lemma changed_iff (k v w : jsstring) :
  In (AttributeChanged path k v w) (Combined.compareAttrs path oa na []) <->
  get k oldAttrs = Some v /\ get k newAttrs = Some w /\ w <> v.
Proof.
  rewrite compareAttrs_two_passes, in_app_iff, !in_flat_map. split.
  - intros [([k' v'] & Hin & Hx)|([k' v'] & Hin & Hx)].
    + unfold old_pass in Hx; simpl in Hx. fold get in Hx.
      destruct (get k' newAttrs) as [w'|] eqn:E.
      * destruct (str_eqb w' v') eqn:Ew; simpl in Hx; [tauto|].
        destruct Hx as [[= <- <- <-]|[]]. repeat split; [|exact E|].
        -- now apply (In_get_Some _ _ _ str_eqb_eq), Hin; apply NoDup_keys_attrMap.
        -- now apply str_eqb_neq.
      * destruct Hx as [Hx|[]]; discriminate.
    + unfold new_pass in Hx. destruct (negb _); simpl in Hx; [|tauto].
      destruct Hx as [Hx|[]]; discriminate.
  - intros (Ho & Hn & Hne). left. exists (k, v). split.
    + now apply (get_Some_In _ _ _ str_eqb_eq).
    + unfold old_pass; simpl. fold get. rewrite Hn.
      apply str_eqb_neq in Hne. rewrite Hne. now left.
Qed.

Lemma added_iff (k v : jsstring) :
  In (AttributeAdded path k v) (Combined.compareAttrs path oa na []) <->
  get k newAttrs = Some v /\ get k oldAttrs = None.
Proof.
  rewrite compareAttrs_two_passes, in_app_iff, !in_flat_map. split.
  - intros [([k' v'] & Hin & Hx)|([k' v'] & Hin & Hx)].
    + unfold old_pass in Hx; simpl in Hx. fold get in Hx.
      destruct (get k' newAttrs) as [w'|].
      * destruct (negb _); simpl in Hx; [|tauto].
        destruct Hx as [Hx|[]]; discriminate.
      * destruct Hx as [Hx|[]]; discriminate.
    + unfold new_pass, InsertionMap.has in Hx; simpl in Hx. fold get in Hx.
      destruct (get k' oldAttrs) eqn:E; simpl in Hx; [tauto|].
      destruct Hx as [[= <- <-]|[]]. split; [|exact E].
      now apply (In_get_Some _ _ _ str_eqb_eq), Hin; apply NoDup_keys_attrMap.
  - intros [Hn Ho]. right. exists (k, v). split.
    + now apply (get_Some_In _ _ _ str_eqb_eq).
    + unfold new_pass, InsertionMap.has; simpl. fold get. rewrite Ho. now left.
Qed.

Lemma compareAttrs_only_attributes :
  Forall (fun x => path_of x = Some path /\ attribute_of x <> None)
    (Combined.compareAttrs path oa na []).
Proof.
  rewrite compareAttrs_two_passes. apply Forall_app. split;
    apply Forall_flat_map, Forall_forall; intros [k v] _.
  - unfold old_pass; simpl. destruct (InsertionMap.get _ _ _).
    + destruct (negb _); repeat constructor; discriminate.
    + repeat constructor; discriminate.
  - unfold new_pass; simpl.
    destruct (negb _); repeat constructor; discriminate.
Qed.
End AttributeComparison.

(** With distinct names, as parse5 hands them over, the map lists the
    attributes in the element's own order. *)
Lemma attrMap_distinct_names (a : list attr) :
  NoDup (List.map name a) ->
  Combined.attrMap a = List.map (fun x => (name x, attr_value x)) a.
Proof.
  unfold Combined.attrMap, InsertionMap.of_entries.
  assert (G : forall (l m : list (jsstring * jsstring)),
            NoDup (List.map fst (m ++ l)) ->
            fold_left (fun m kv => InsertionMap.set str_eqb (fst kv) (snd kv) m) l m
            = m ++ l).
  { induction l as [|[k v] l IH]; intros m H; simpl.
    - now rewrite app_nil_r.
    - assert (E : InsertionMap.set str_eqb k v m = m ++ [(k, v)]).
      { rewrite map_app in H. apply NoDup_app_remove_r in H as Hm.
        assert (Hk : ~ In k (List.map fst m)).
        { intros Hin. apply NoDup_remove_2 in H. apply H.
          rewrite in_app_iff. left.
          rewrite <- map_app in *. simpl in *. tauto. }
        clear H Hm. induction m as [|[k' v'] m IHm]; simpl; [reflexivity|].
        destruct (str_eqb k' k) eqn:E.
        + apply str_eqb_eq in E. subst. simpl in Hk. tauto.
        + rewrite IHm; [reflexivity|]. simpl in Hk. tauto. }
      rewrite E, IH; rewrite <- app_assoc; [reflexivity | exact H]. }
  intros H. apply (G _ []). simpl. now rewrite map_map.
Qed.

(** C7.  For two elements [compareNodes] reports, between the tag and text
    differences and the children's, the attribute differences: a key of
    the old map missing from the new gives [attributeRemoved], a key of
    both with different values gives [attributeChanged] with both values,
    a key of the new map missing from the old gives [attributeAdded];
    nothing else is reported, no key twice, and the old map's keys come
    first, in its insertion order, then the new map's, in its own. *)
Theorem compareAttrs_reports
  (diffChars : jsstring -> jsstring -> list part) (path : jsstring)
  (oldTag newTag : jsstring) (oa na : list attr) (oc nc : list node) :
  let oldAttrs := Combined.attrMap oa in
  let newAttrs := Combined.attrMap na in
  let reported := Combined.compareAttrs path oa na [] in
  Combined.compareNodes diffChars
    (Some (Element oldTag oa oc)) (Some (Element newTag na nc)) [] path
  = (t <- Combined.compareValues diffChars
            (Element oldTag oa oc) (Element newTag na nc) path [] ;;
     c <- Combined.compareChildren (Combined.compareNodes_present diffChars)
            path oc nc 0 [] ;;
     Return (Combined.compareTags (Element oldTag oa oc) (Element newTag na nc)
               path []
             ++ t ++ reported ++ c))
  /\ (forall k v,
        In (AttributeRemoved path k v) reported <->
        InsertionMap.get str_eqb k oldAttrs = Some v
        /\ InsertionMap.get str_eqb k newAttrs = None)
  /\ (forall k v w,
        In (AttributeChanged path k v w) reported <->
        InsertionMap.get str_eqb k oldAttrs = Some v
        /\ InsertionMap.get str_eqb k newAttrs = Some w /\ w <> v)
  /\ (forall k v,
        In (AttributeAdded path k v) reported <->
        InsertionMap.get str_eqb k newAttrs = Some v
        /\ InsertionMap.get str_eqb k oldAttrs = None)
  /\ Forall (fun x => path_of x = Some path /\ attribute_of x <> None) reported
  /\ NoDup (List.map attribute_of reported)
  /\ List.map attribute_of reported
     = List.map Some
         (filter (differs_in_new oldAttrs newAttrs) (InsertionMap.keys oldAttrs))
       ++ List.map Some
            (filter (fun k => negb (InsertionMap.has str_eqb k oldAttrs))
               (InsertionMap.keys newAttrs)).
Proof.
  intros oldAttrs newAttrs reported. repeat apply conj.
  - apply (compareNodes_present_blocks diffChars
             (Element oldTag oa oc) (Element newTag na nc) path).
  - apply removed_iff.
  - apply changed_iff.
  - apply added_iff.
  - apply compareAttrs_only_attributes.
  - apply compareAttrs_one_per_key.
  - apply compareAttrs_names.
Qed.

Lemma compareAttrs_reports_witness :
  Combined.compareAttrs (js "0/1/0")
    [Attr (js "class") (js "old"); Attr (js "id") (js "x"); Attr (js "lang") (js "en")]
    [Attr (js "lang") (js "en"); Attr (js "class") (js "new"); Attr (js "href") (js "y")]
    []
  = [AttributeChanged (js "0/1/0") (js "class") (js "old") (js "new");
     AttributeRemoved (js "0/1/0") (js "id") (js "x");
     AttributeAdded (js "0/1/0") (js "href") (js "y")]
  /\ In (AttributeRemoved (js "0/1/0") (js "id") (js "x"))
       (Combined.compareAttrs (js "0/1/0")
          [Attr (js "class") (js "old"); Attr (js "id") (js "x");
           Attr (js "lang") (js "en")]
          [Attr (js "lang") (js "en"); Attr (js "class") (js "new");
           Attr (js "href") (js "y")]
          []).
Proof.
  split; [reflexivity|].
  apply (proj1 (proj2 (compareAttrs_reports Sample.diffChars (js "0/1/0")
                         (js "a") (js "a")
                         [Attr (js "class") (js "old"); Attr (js "id") (js "x");
                          Attr (js "lang") (js "en")]
                         [Attr (js "lang") (js "en"); Attr (js "class") (js "new");
                          Attr (js "href") (js "y")]
                         [] []))).
  split; reflexivity.
Defined.

(** ** A tree against itself, and against itself with one more child *)

Section SameTree.
Variable diffChars : jsstring -> jsstring -> list part.

Lemma flat_map_nil {A B : Type} (f : A -> list B) (l : list A) :
  Forall (fun a => f a = []) l -> flat_map f l = [].
Proof. induction 1 as [|a l Ha _ IH]; simpl; [reflexivity | now rewrite Ha]. Qed.

Lemma compareAttrs_same (path : jsstring) (a : list attr)
  (d : list difference) :
  Combined.compareAttrs path a a d = d.
Proof.
  rewrite compareAttrs_passes.
  pose proof (entries_get (Combined.attrMap a) (NoDup_keys_attrMap a)) as H.
  rewrite !flat_map_nil; [now rewrite app_nil_r | |].
  - eapply Forall_impl; [|exact H]. intros [k v] Hk. simpl in Hk.
    unfold new_pass, InsertionMap.has. simpl. now rewrite Hk.
  - eapply Forall_impl; [|exact H]. intros [k v] Hk. simpl in Hk.
    unfold old_pass. simpl. now rewrite Hk, str_eqb_refl.
Qed.

Lemma compareChildren_same
  (compare : node -> node -> list difference -> jsstring
             -> completion (list difference))
  (path : jsstring) (cs extra : list node) (i : nat) (d : list difference) :
  Forall (fun o => forall d p, text_has_value o = true ->
                               compare o o d p = Return d) cs ->
  forallb text_has_value cs = true ->
  Combined.compareChildren compare path cs (cs ++ extra) i d
  = Return (Combined.compareRest path extra (i + List.length cs) d).
Proof.
  intros H; revert i d; induction H as [|o cs Ho _ IH]; intros i d Hwf; simpl.
  - now rewrite Nat.add_0_r.
  - simpl in Hwf. apply andb_prop in Hwf as [Hwo Hwf].
    rewrite Ho by exact Hwo. simpl. rewrite IH by exact Hwf.
    now rewrite Nat.add_succ_r.
Qed.

Lemma compareNodes_present_same (o : node) (d : list difference)
  (path : jsstring) :
  text_has_value o = true ->
  Combined.compareNodes_present diffChars o o d path = Return d.
Proof.
  revert d path.
  assert (step : forall o,
    Forall (fun o => forall d p, text_has_value o = true ->
              Combined.compareNodes_present diffChars o o d p = Return d)
      (childNodes_or_empty o) ->
    forall d path, text_has_value o = true ->
      Combined.compareNodes_present diffChars o o d path = Return d).
  { clear o. intros o Hc d path Hwf.
    rewrite compareNodes_present_eq.
    unfold Combined.compareTags. rewrite str_eqb_refl. simpl.
    assert (Hv : Combined.compareValues diffChars o o path d = Return d).
    { unfold Combined.compareValues.
      destruct (str_eqb (nodeName o) (js "#text")) eqn:E; [|reflexivity].
      destruct (text_has_value_named o Hwf E) as [v ->]. simpl.
      now rewrite str_eqb_refl. }
    rewrite Hv. simpl.
    assert (Ha : Combined.compareAttrs_if_present o o path d = d).
    { unfold Combined.compareAttrs_if_present.
      destruct (attrs o); [apply compareAttrs_same | reflexivity]. }
    rewrite Ha.
    rewrite <- (app_nil_r (childNodes_or_empty o)) at 2.
    rewrite compareChildren_same; auto using text_has_value_children. }
  induction o using node_forall_ind; intros; apply step; simpl; auto.
Qed.

(** Subtree addition is atomic: an element that gains one last child, all
    else equal, yields the single difference [added] at the new child's
    path, carrying the child with everything below it. *)
Lemma subtree_addition_atomic (tag : jsstring) (a : list attr)
  (cs : list node) (extra : node) (path : jsstring) :
  text_has_value (Element tag a cs) = true ->
  Combined.compareNodes diffChars
    (Some (Element tag a cs)) (Some (Element tag a (cs ++ [extra]))) [] path
  = Return [Added (childPath path (List.length cs)) (Some extra)].
Proof.
  intros Hwf. unfold Combined.compareNodes.
  rewrite compareNodes_present_eq.
  assert (Ht : str_eqb tag (js "#text") = false).
  { simpl in Hwf. now destruct (str_eqb tag (js "#text")). }
  set (o := Element tag a cs). set (n := Element tag a (cs ++ [extra])).
  assert (Htag : Combined.compareTags o n path [] = []).
  { unfold Combined.compareTags. simpl nodeName. now rewrite str_eqb_refl. }
  assert (Hval : Combined.compareValues diffChars o n path [] = Return []).
  { unfold Combined.compareValues. simpl nodeName. now rewrite Ht. }
  assert (Hattr : Combined.compareAttrs_if_present o n path [] = []).
  { unfold Combined.compareAttrs_if_present. cbn [attrs o n].
    apply compareAttrs_same. }
  rewrite Htag, Hval. cbn [bind]. rewrite Hattr.
  cbn [childNodes_or_empty o n].
  rewrite compareChildren_same.
  - reflexivity.
  - apply Forall_forall. intros x _ d p. apply compareNodes_present_same.
  - exact (text_has_value_children _ Hwf).
Qed.
End SameTree.

(** ** Symmetry of detection away from mixed pairs *)

Section Symmetry.
Variable diffChars : jsstring -> jsstring -> list part.

Local Abbreviation present := (Combined.compareNodes_present diffChars).

Lemma aligned_eq (o n : node) :
  aligned o n =
  Bool.eqb (is_text o) (is_text n)
  && aligned_children aligned (childNodes_or_empty o) (childNodes_or_empty n).
Proof. destruct o; reflexivity. Qed.

(** A pair is silent when each of its four blocks is. *)
Lemma present_silent_iff (o n : node) (path : jsstring) :
  present o n [] path = Return [] <->
  Combined.compareTags o n path [] = []
  /\ Combined.compareValues diffChars o n path [] = Return []
  /\ Combined.compareAttrs_if_present o n path [] = []
  /\ Combined.compareChildren present path
       (childNodes_or_empty o) (childNodes_or_empty n) 0 [] = Return [].
Proof.
  rewrite compareNodes_present_blocks.
  destruct (Combined.compareValues diffChars o n path []) as [t|e]; simpl.
  2: { split; [discriminate | intros (_ & H & _); discriminate]. }
  destruct (Combined.compareChildren _ _ _ _ _ _) as [c|e]; simpl.
  2: { split; [discriminate | intros (_ & _ & _ & H); discriminate]. }
  split.
  - intros [= H]. apply app_eq_nil in H as [H1 H].
    apply app_eq_nil in H as [H2 H]. apply app_eq_nil in H as [H3 H4].
    subst. auto.
  - intros (-> & [= ->] & -> & [= ->]). reflexivity.
Qed.

Lemma compareTags_symmetric (o n : node) (path : jsstring) :
  Bool.eqb (is_text o) (is_text n) = true ->
  Combined.compareTags o n path [] = [] <-> Combined.compareTags n o path [] = [].
Proof.
  unfold Combined.compareTags, is_text. intros H. apply eqb_prop in H.
  rewrite (str_eqb_sym (nodeName n) (nodeName o)), <- H.
  destruct (str_eqb (nodeName o) (nodeName n)),
           (str_eqb (nodeName o) (js "#text")); simpl;
    try tauto; split; discriminate.
Qed.

Lemma compareValues_symmetric (o n : node) (path : jsstring) :
  Combined.compareValues diffChars o n path [] = Return [] <->
  Combined.compareValues diffChars n o path [] = Return [].
Proof.
  unfold Combined.compareValues.
  rewrite (andb_comm (str_eqb (nodeName n) _)).
  destruct (_ && _); [|tauto].
  destruct (trim_of (value o)) as [a|], (trim_of (value n)) as [b|]; simpl;
    try tauto; try (split; discriminate).
  rewrite (str_eqb_sym b a).
  destruct (str_eqb a b); simpl; [tauto | split; discriminate].
Qed.

Lemma compareAttrs_silent_iff (path : jsstring) (oa na : list attr) :
  Combined.compareAttrs path oa na [] = [] <->
  forall k, InsertionMap.get str_eqb k (Combined.attrMap oa)
            = InsertionMap.get str_eqb k (Combined.attrMap na).
Proof.
  split.
  - intros E k.
    destruct (InsertionMap.get str_eqb k (Combined.attrMap oa)) as [v|] eqn:Eo,
             (InsertionMap.get str_eqb k (Combined.attrMap na)) as [w|] eqn:En;
      try reflexivity.
    + destruct (str_eqb w v) eqn:Ewv; [apply str_eqb_eq in Ewv; now subst|].
      apply str_eqb_neq in Ewv.
      assert (H : In (AttributeChanged path k v w)
                    (Combined.compareAttrs path oa na []))
        by (apply changed_iff; auto).
      rewrite E in H. destruct H.
    + assert (H : In (AttributeRemoved path k v)
                    (Combined.compareAttrs path oa na []))
        by (apply removed_iff; auto).
      rewrite E in H. destruct H.
    + assert (H : In (AttributeAdded path k w)
                    (Combined.compareAttrs path oa na []))
        by (apply added_iff; auto).
      rewrite E in H. destruct H.
  - intros H.
    pose proof (compareAttrs_only_attributes path oa na) as Hall.
    destruct (Combined.compareAttrs path oa na []) as [|x r] eqn:E;
      [reflexivity|].
    exfalso. inversion Hall as [|? ? [Hp Ha] _]; subst.
    assert (Hin : In x (Combined.compareAttrs path oa na []))
      by (rewrite E; now left).
    destruct x; simpl in Hp, Ha; try congruence; injection Hp as ->.
    + apply removed_iff in Hin as [H1 H2]. rewrite H in H1. congruence.
    + apply changed_iff in Hin as (H1 & H2 & H3). rewrite H in H1. congruence.
    + apply added_iff in Hin as [H1 H2]. rewrite H in H2. congruence.
Qed.

Lemma compareAttrs_symmetric (o n : node) (path : jsstring) :
  Combined.compareAttrs_if_present o n path [] = [] <->
  Combined.compareAttrs_if_present n o path [] = [].
Proof.
  unfold Combined.compareAttrs_if_present.
  destruct (attrs o) as [oa|], (attrs n) as [na|]; try tauto.
  rewrite !compareAttrs_silent_iff. split; intros H k; now rewrite H.
Qed.

Lemma compareChildren_cons_silent (path : jsstring) (o n : node)
  (oc nc : list node) (i : nat) :
  Combined.compareChildren present path (o :: oc) (n :: nc) i [] = Return [] <->
  present o n [] (childPath path i) = Return []
  /\ Combined.compareChildren present path oc nc (S i) [] = Return [].
Proof.
  simpl.
  destruct (present o n [] (childPath path i)) as [d|e]; simpl.
  2: { split; [discriminate | intros [H _]; discriminate]. }
  rewrite (compareChildren_appends present path oc nc (S i)).
  2: { apply Forall_forall. intros x _ m p.
       apply compareNodes_present_appends. }
  destruct (Combined.compareChildren present path oc nc (S i) []) as [c|e];
    simpl.
  2: { split; [discriminate | intros [_ H]; discriminate]. }
  split.
  - intros [= H]. apply app_eq_nil in H as [-> ->]. auto.
  - intros [[= ->] [= ->]]. reflexivity.
Qed.

Lemma compareChildren_symmetric (path : jsstring) (oc nc : list node)
  (i : nat) :
  Forall (fun o => forall n p,
            text_has_value o = true -> text_has_value n = true ->
            aligned o n = true ->
            present o n [] p = Return [] <-> present n o [] p = Return []) oc ->
  forallb text_has_value oc = true -> forallb text_has_value nc = true ->
  aligned_children aligned oc nc = true ->
  Combined.compareChildren present path oc nc i [] = Return [] <->
  Combined.compareChildren present path nc oc i [] = Return [].
Proof.
  intros H; revert nc i; induction H as [|o oc Ho _ IH]; intros nc i Hoc Hnc Ha.
  - destruct nc as [|n nc]; [tauto|].
    rewrite compareChildren_new_exhausted. simpl.
    rewrite compareRest_app. simpl. split; discriminate.
  - destruct nc as [|n nc].
    + rewrite compareChildren_new_exhausted. simpl.
      rewrite compareRest_app. simpl. split; discriminate.
    + simpl in Hoc, Hnc, Ha.
      apply andb_prop in Hoc as [Hwo Hoc], Hnc as [Hwn Hnc], Ha as [Hao Ha].
      rewrite !compareChildren_cons_silent.
      rewrite (Ho n (childPath path i) Hwo Hwn Hao).
      now rewrite (IH nc (S i) Hoc Hnc Ha).
Qed.

(** Where no text node faces a node of another kind, a pair of trees is
    silent in one direction exactly when it is in the other. *)
Lemma compareNodes_present_symmetric (o n : node) (path : jsstring) :
  text_has_value o = true -> text_has_value n = true ->
  aligned o n = true ->
  present o n [] path = Return [] <-> present n o [] path = Return [].
Proof.
  revert n path.
  assert (step : forall o,
    Forall (fun o => forall n p,
              text_has_value o = true -> text_has_value n = true ->
              aligned o n = true ->
              present o n [] p = Return [] <-> present n o [] p = Return [])
      (childNodes_or_empty o) ->
    forall n path,
      text_has_value o = true -> text_has_value n = true ->
      aligned o n = true ->
      present o n [] path = Return [] <-> present n o [] path = Return []).
  { clear o. intros o Hc n path Hwo Hwn Ha.
    rewrite aligned_eq in Ha. apply andb_prop in Ha as [Hk Ha].
    rewrite !present_silent_iff.
    rewrite (compareTags_symmetric o n path Hk).
    rewrite (compareValues_symmetric o n path).
    rewrite (compareAttrs_symmetric o n path).
    rewrite (compareChildren_symmetric path _ _ 0 Hc
               (text_has_value_children o Hwo) (text_has_value_children n Hwn) Ha).
    tauto. }
  induction o using node_forall_ind; intros; apply step; simpl; auto.
Qed.
End Symmetry.

(** X5.  The two directions of [diff] agree on [changed]: on the text
    path always, and on the HTML path when the two parsed trees never set
    a text node against a node of another kind.  Nothing is asked of the
    trees when neither input looks like HTML. *)
Lemma diff_changed_symmetric_when_aligned (parse : jsstring -> node)
  (diffChars : jsstring -> jsstring -> list part) (a b : jsstring)
  (ra rb : DiffResult) :
  edit_script diffChars -> well_formed_parser parse ->
  (htmlRegex_test a || htmlRegex_test b = true ->
   aligned (parse (trim (replace_gt_spaces_lt 0 a)))
           (parse (trim (replace_gt_spaces_lt 0 b))) = true) ->
  Combined.diff parse diffChars (VString a) (VString b) = Return ra ->
  Combined.diff parse diffChars (VString b) (VString a) = Return rb ->
  changed ra = changed rb.
Proof.
  intros Hscript Hwf Hal. unfold Combined.diff. simpl ToString.
  rewrite (orb_comm (htmlRegex_test b)).
  destruct (htmlRegex_test a || htmlRegex_test b).
  - specialize (Hal eq_refl).
    unfold Combined.compareHTML. simpl.
    set (a' := trim (replace_gt_spaces_lt 0 a)) in *.
    set (b' := trim (replace_gt_spaces_lt 0 b)) in *.
    rewrite (str_eqb_sym b' a').
    destruct (str_eqb a' b'); [intros [= <-] [= <-]; reflexivity|].
    pose proof (compareNodes_present_symmetric diffChars (parse a') (parse b')
                  [] (Hwf a') (Hwf b') Hal) as Hsym.
    destruct (Combined.compareNodes_present diffChars (parse a') (parse b') [] [])
      as [d|e]; simpl; [|discriminate].
    destruct (Combined.compareNodes_present diffChars (parse b') (parse a') [] [])
      as [d'|e]; simpl; [|discriminate].
    intros [= <-] [= <-]. simpl.
    destruct d as [|x d], d' as [|y d']; try reflexivity; exfalso.
    + destruct Hsym as [H _]. specialize (H eq_refl). discriminate.
    + destruct Hsym as [_ H]. specialize (H eq_refl). discriminate.
  - unfold Combined.compareText. simpl. rewrite (str_eqb_sym b a).
    destruct (str_eqb a b) eqn:E; [intros [= <-] [= <-]; reflexivity|].
    apply str_eqb_neq in E. simpl. intros [= <-] [= <-]. simpl.
    rewrite (edit_script_reports_change diffChars a b Hscript E).
    rewrite (edit_script_reports_change diffChars b a Hscript); auto.
Qed.

(** * Further properties of the code *)

(** ** [normalizeHtml] *)

Lemma is_space_GT : is_space GT = false.
Proof. reflexivity. Qed.

Lemma is_space_LT : is_space LT = false.
Proof. reflexivity. Qed.

Lemma replace_skip (s : jsstring) (k : nat) :
  replace_gt_spaces_lt k s = replace_gt_spaces_lt 0 (skipn k s).
Proof.
  revert k; induction s as [|c s IH]; intros [|k]; try reflexivity.
  simpl. apply IH.
Qed.

Lemma replace_cons (c : N) (s : jsstring) :
  replace_gt_spaces_lt 0 (c :: s) =
  if (c =? GT)%N then
    match match_spaces_lt 0 s with
    | Some n => GT :: LT :: replace_gt_spaces_lt 0 (skipn n s)
    | None => c :: replace_gt_spaces_lt 0 s
    end
  else c :: replace_gt_spaces_lt 0 s.
Proof.
  simpl. destruct (c =? GT)%N; [|reflexivity].
  destruct (match_spaces_lt 0 s); [|reflexivity]. now rewrite replace_skip.
Qed.

Lemma match_spaces_lt_head_LT (k : nat) (s : jsstring) :
  match_spaces_lt 0 (LT :: s) = None.
Proof. reflexivity. Qed.

(** What [\s+<] matches at the head of a string is unchanged by the
    replacement. *)
Lemma match_replace (s : jsstring) (k : nat) :
  match_spaces_lt k (replace_gt_spaces_lt 0 s) = match_spaces_lt k s.
Proof.
  revert k; induction s as [|c s IH]; intros k; [reflexivity|].
  rewrite replace_cons. destruct (N.eqb_spec c GT) as [->|Hc].
  - destruct (match_spaces_lt 0 s); reflexivity.
  - simpl. now rewrite IH.
Qed.

Lemma replace_idempotent (s : jsstring) :
  replace_gt_spaces_lt 0 (replace_gt_spaces_lt 0 s) = replace_gt_spaces_lt 0 s.
Proof.
  remember (List.length s) as m eqn:Hm.
  assert (H : List.length s <= m) by lia. clear Hm.
  revert s H; induction m as [|m IH]; intros [|c s] H; try reflexivity;
    [simpl in H; lia|].
  simpl in H. rewrite replace_cons.
  destruct (N.eqb_spec c GT) as [->|Hc].
  - destruct (match_spaces_lt 0 s) as [n|] eqn:E.
    + rewrite replace_cons. rewrite N.eqb_refl.
      rewrite (match_spaces_lt_head_LT 0).
      rewrite (replace_cons LT). change (LT =? GT)%N with false.
      rewrite IH; [reflexivity|].
      pose proof (length_skipn n s). lia.
    + rewrite replace_cons, N.eqb_refl, match_replace, E.
      rewrite IH; [reflexivity | lia].
  - rewrite replace_cons. apply N.eqb_neq in Hc. rewrite Hc.
    rewrite IH; [reflexivity | lia].
Qed.

Lemma replace_fixed_tail (c : N) (s : jsstring) :
  replace_gt_spaces_lt 0 (c :: s) = c :: s ->
  replace_gt_spaces_lt 0 s = s.
Proof.
  rewrite replace_cons. destruct (c =? GT)%N.
  - destruct (match_spaces_lt 0 s) as [n|] eqn:E.
    + intros Heq. injection Heq as Hc Hs. rewrite <- Hs in E. discriminate.
    + now intros [= H].
  - now intros [= H].
Qed.

Lemma match_spaces_lt_app (s t : jsstring) (k n : nat) :
  match_spaces_lt k s = Some n -> match_spaces_lt k (s ++ t) = Some n.
Proof.
  revert k; induction s as [|c s IH]; intros k; simpl; [discriminate|].
  destruct (is_space c); [apply IH|]. now destruct (c =? LT)%N.
Qed.

Lemma replace_fixed_prefix (s t : jsstring) :
  replace_gt_spaces_lt 0 (s ++ t) = s ++ t ->
  replace_gt_spaces_lt 0 s = s.
Proof.
  induction s as [|c s IH]; [reflexivity|].
  simpl app. intros H. pose proof (replace_fixed_tail _ _ H) as Ht.
  rewrite replace_cons in *. destruct (c =? GT)%N.
  - destruct (match_spaces_lt 0 s) as [n|] eqn:E.
    + pose proof (match_spaces_lt_app s t 0 n E) as E'.
      rewrite E' in H. injection H as Hc Hs.
      rewrite <- Hs in E'. discriminate.
    + now rewrite IH.
  - now rewrite IH.
Qed.

Lemma dropWhile_suffix {A : Type} (p : A -> bool) (l : list A) :
  exists pre, l = pre ++ dropWhile p l.
Proof.
  induction l as [|x l [pre IH]]; [now exists []|].
  simpl. destruct (p x); [|now exists []].
  exists (x :: pre). simpl. now rewrite <- IH.
Qed.

Lemma replace_fixed_dropWhile (p : N -> bool) (s : jsstring) :
  replace_gt_spaces_lt 0 s = s ->
  replace_gt_spaces_lt 0 (dropWhile p s) = dropWhile p s.
Proof.
  induction s as [|c s IH]; [reflexivity|].
  intros H. simpl. destruct (p c); [|exact H].
  apply IH. exact (replace_fixed_tail _ _ H).
Qed.

Lemma trim_prefix_of_dropWhile (s : jsstring) :
  exists post, dropWhile is_space s = trim s ++ post.
Proof.
  unfold trim. set (v := dropWhile is_space s).
  destruct (dropWhile_suffix is_space (rev v)) as [pre H].
  exists (rev pre). rewrite <- rev_app_distr, <- H. now rewrite rev_involutive.
Qed.

Lemma replace_fixed_trim (s : jsstring) :
  replace_gt_spaces_lt 0 s = s ->
  replace_gt_spaces_lt 0 (trim s) = trim s.
Proof.
  intros H. apply (replace_fixed_dropWhile is_space) in H.
  destruct (trim_prefix_of_dropWhile s) as [post E]. rewrite E in H.
  exact (replace_fixed_prefix _ _ H).
Qed.

(** *** [trim] *)

Lemma dropWhile_no_lead {A : Type} (p : A -> bool) (l : list A) :
  match l with [] => True | x :: _ => p x = false end ->
  dropWhile p l = l.
Proof. destruct l as [|x l]; [reflexivity|]. simpl. now intros ->. Qed.

Lemma no_lead_dropWhile {A : Type} (p : A -> bool) (l : list A) :
  match dropWhile p l with [] => True | x :: _ => p x = false end.
Proof.
  induction l as [|x l IH]; simpl; [exact I|].
  destruct (p x) eqn:E; [exact IH | exact E].
Qed.

Lemma trim_no_lead (s : jsstring) :
  match trim s with [] => True | c :: _ => is_space c = false end.
Proof.
  destruct (trim_prefix_of_dropWhile s) as [post E].
  pose proof (no_lead_dropWhile is_space s) as H. rewrite E in H.
  now destruct (trim s).
Qed.

Lemma trim_idempotent (s : jsstring) : trim (trim s) = trim s.
Proof.
  pose proof (trim_no_lead s) as Hlead.
  unfold trim at 1. rewrite (dropWhile_no_lead is_space (trim s) Hlead).
  unfold trim. rewrite rev_involutive.
  rewrite (dropWhile_no_lead is_space (dropWhile is_space (rev _)));
    [reflexivity | apply no_lead_dropWhile].
Qed.

(** X1.  [normalizeHtml] is idempotent: normalizing its own result gives
    the result back.  So [diff] of markup against its normalized form
    reports no change. *)
Theorem normalizeHtml_idempotent (parse : jsstring -> node)
  (diffChars : jsstring -> jsstring -> list part) (html : jsstring) :
  bind (Combined.normalizeHtml (VString html))
    (fun t => Combined.normalizeHtml (VString t))
  = Combined.normalizeHtml (VString html)
  /\ (htmlRegex_test html = true ->
      bind (Combined.normalizeHtml (VString html))
        (fun t => Combined.diff parse diffChars (VString html) (VString t))
      = Return (Result false [])).
Proof.
  assert (E : trim (replace_gt_spaces_lt 0
                      (trim (replace_gt_spaces_lt 0 html)))
              = trim (replace_gt_spaces_lt 0 html)).
  { rewrite (replace_fixed_trim _ (replace_idempotent html)).
    apply trim_idempotent. }
  split.
  - simpl. now rewrite E.
  - intros Hhtml. simpl bind. unfold Combined.diff. simpl ToString.
    rewrite Hhtml. unfold Combined.compareHTML. simpl.
    now rewrite E, str_eqb_refl.
Qed.

Lemma normalizeHtml_idempotent_witness :
  htmlRegex_test (js " <ul> <li>a</li>  </ul> ") = true
  /\ Combined.diff Sample.parse Sample.diffChars
       (VString (js " <ul> <li>a</li>  </ul> "))
       (VString (js "<ul><li>a</li></ul>"))
     = Return (Result false []).
Proof.
  split; [reflexivity|].
  exact (proj2 (normalizeHtml_idempotent Sample.parse Sample.diffChars
                  (js " <ul> <li>a</li>  </ul> ")) eq_refl).
Defined.

(** ** The content-type test of [diff] *)

(** [htmlRegex.test] accepts exactly the strings in which some [<] is
    directly followed by an ASCII letter and, anywhere after that letter,
    by a [>]. *)
Lemma htmlRegex_test_iff (s : jsstring) :
  htmlRegex_test s = true <-> tag_shaped s.
Proof.
  unfold tag_shaped. split.
  - induction s as [|c s IH]; simpl; [discriminate|].
    intros H. apply orb_prop in H as [H|H].
    + apply andb_prop in H as [Hc H]. apply N.eqb_eq in Hc. subst c.
      destruct s as [|l s]; [discriminate|].
      apply andb_prop in H as [Hl H].
      apply existsb_exists in H as (x & Hin & Hx).
      apply N.eqb_eq in Hx. subst x.
      apply in_split in Hin as (mid & post & ->).
      now exists [], l, mid, post.
    + destruct (IH H) as (pre & l & mid & post & -> & Hl).
      now exists (c :: pre), l, mid, post.
  - intros (pre & l & mid & post & -> & Hl).
    induction pre as [|c pre IH]; simpl.
    + rewrite Hl, existsb_app. simpl. now rewrite orb_true_r.
    + rewrite IH. apply orb_true_r.
Qed.

(** X2.  [diff] picks its path by [htmlRegex.test] on the two inputs as
    strings.  The test accepts exactly the strings in which some [<] is
    directly followed by an ASCII letter and, anywhere after that letter,
    by a [>].  When either input has that shape [diff] is [compareHTML] on
    the two inputs; when neither has it, [diff] is [compareText] on them. *)
Theorem diff_routes_by_tag_shape (parse : jsstring -> node)
  (diffChars : jsstring -> jsstring -> list part)
  (oldContent newContent : jsvalue) :
  (forall s, htmlRegex_test s = true <-> tag_shaped s)
  /\ (tag_shaped (ToString oldContent) \/ tag_shaped (ToString newContent) ->
      Combined.diff parse diffChars oldContent newContent
      = Combined.compareHTML parse diffChars oldContent newContent)
  /\ (~ tag_shaped (ToString oldContent) ->
      ~ tag_shaped (ToString newContent) ->
      Combined.diff parse diffChars oldContent newContent
      = Combined.compareText diffChars oldContent newContent).
Proof.
  split; [exact htmlRegex_test_iff|]. unfold Combined.diff. split.
  - intros [H|H]; apply htmlRegex_test_iff in H; rewrite H;
      [reflexivity | now rewrite orb_true_r].
  - intros Ho Hn.
    destruct (htmlRegex_test (ToString oldContent)) eqn:Eo;
      [exfalso; apply Ho; now apply htmlRegex_test_iff|].
    destruct (htmlRegex_test (ToString newContent)) eqn:En;
      [exfalso; apply Hn; now apply htmlRegex_test_iff|].
    reflexivity.
Qed.

Lemma diff_routes_by_tag_shape_witness :
  tag_shaped (js "if a<b then c>d")
  /\ Combined.diff Sample.parse Sample.diffChars
       (VString (js "if a<b then c>d")) (VString (js "if a then d"))
     = Combined.compareHTML Sample.parse Sample.diffChars
         (VString (js "if a<b then c>d")) (VString (js "if a then d")).
Proof.
  assert (H : tag_shaped (js "if a<b then c>d")).
  { exists (js "if a"), 98%N, (js " then c"), (js "d"). split; reflexivity. }
  split; [exact H|].
  apply (proj1 (proj2 (diff_routes_by_tag_shape Sample.parse Sample.diffChars
                         (VString (js "if a<b then c>d"))
                         (VString (js "if a then d"))))).
  left. exact H.
Defined.

(** ** Text nodes *)

Lemma dropWhile_app_all {A : Type} (p : A -> bool) (ws l : list A) :
  forallb p ws = true -> dropWhile p (ws ++ l) = dropWhile p l.
Proof.
  induction ws as [|x ws IH]; simpl; [reflexivity|].
  intros H. apply andb_prop in H as [-> H]. auto.
Qed.

Lemma dropWhile_app {A : Type} (p : A -> bool) (a b : list A) :
  dropWhile p (a ++ b) =
  match dropWhile p a with
  | [] => dropWhile p b
  | v => v ++ b
  end.
Proof.
  induction a as [|x a IH]; simpl; [now destruct (dropWhile p b)|].
  destruct (p x); [exact IH | reflexivity].
Qed.

Lemma forallb_rev {A : Type} (p : A -> bool) (l : list A) :
  forallb p (rev l) = forallb p l.
Proof.
  induction l as [|x l IH]; simpl; [reflexivity|].
  rewrite forallb_app, IH. simpl. rewrite andb_true_r. apply andb_comm.
Qed.

Lemma trim_padding (ws1 a ws2 : jsstring) :
  forallb is_space ws1 = true -> forallb is_space ws2 = true ->
  trim (ws1 ++ a ++ ws2) = trim a.
Proof.
  intros H1 H2. unfold trim. rewrite (dropWhile_app_all _ _ _ H1).
  rewrite dropWhile_app. destruct (dropWhile is_space a) as [|x v] eqn:E.
  - rewrite <- (app_nil_r ws2), (dropWhile_app_all _ _ _ H2). reflexivity.
  - rewrite rev_app_distr, dropWhile_app_all; [reflexivity|].
    now rewrite forallb_rev.
Qed.

(** X9.  Two text nodes are reported as different exactly when their
    values differ after [trim]; in particular white space added around a
    text node's value, on either side, is no difference. *)
Theorem text_nodes_compared_trimmed
  (diffChars : jsstring -> jsstring -> list part)
  (a b : jsstring) (d : list difference) (path : jsstring) :
  (Combined.compareNodes diffChars (Some (Text a)) (Some (Text b)) d path
   = Return d <-> trim a = trim b)
  /\ (forall ws1 ws2,
        forallb is_space ws1 = true -> forallb is_space ws2 = true ->
        Combined.compareNodes diffChars
          (Some (Text (ws1 ++ a ++ ws2))) (Some (Text a)) d path = Return d
        /\ Combined.compareNodes diffChars
             (Some (Text a)) (Some (Text (ws1 ++ a ++ ws2))) d path = Return d).
Proof.
  assert (E : forall x y,
            Combined.compareNodes diffChars (Some (Text x)) (Some (Text y)) d path
            = if str_eqb (trim x) (trim y) then Return d
              else Return (d ++ [TextDifference (Some path)
                                   (List.map change_of_part
                                      (diffChars (trim x) (trim y)))])).
  { intros x y. simpl. unfold Combined.compareTags, Combined.compareValues.
    simpl. now destruct (str_eqb (trim x) (trim y)). }
  split.
  - rewrite E. destruct (str_eqb (trim a) (trim b)) eqn:Et.
    + apply str_eqb_eq in Et. tauto.
    + apply str_eqb_neq in Et. split; [|tauto].
      intros [= H]. rewrite <- (app_nil_r d) in H at 2.
      apply app_inv_head in H. discriminate.
  - intros ws1 ws2 H1 H2. rewrite !E, (trim_padding ws1 a ws2 H1 H2).
    now rewrite str_eqb_refl.
Qed.

Lemma text_nodes_compared_trimmed_witness :
  Combined.compareNodes Sample.diffChars
    (Some (Text (js "  Hello World! " ++ [10%N])))
    (Some (Text (js "Hello World!"))) [] (js "0/1/0/0")
  = Return [].
Proof.
  exact (proj1 (proj2 (text_nodes_compared_trimmed Sample.diffChars
                         (js "Hello World!") (js "Hello World!") []
                         (js "0/1/0/0"))
                  (js "  ") (js " " ++ [10%N]) eq_refl eq_refl)).
Defined.

(** ** The text path of [diff] *)

(** X21.  When neither input looks like markup, [diff] returns, and it
    reports a change exactly when the two strings differ ([diffChars]
    answering with an edit script). *)
Theorem text_path_changed_iff_differ (parse : jsstring -> node)
  (diffChars : jsstring -> jsstring -> list part) (a b : jsstring) :
  edit_script diffChars ->
  htmlRegex_test a = false -> htmlRegex_test b = false ->
  exists r, Combined.diff parse diffChars (VString a) (VString b) = Return r
            /\ (changed r = true <-> a <> b).
Proof.
  intros Hscript Ha Hb. unfold Combined.diff. simpl ToString.
  rewrite Ha, Hb. unfold Combined.compareText. simpl.
  destruct (str_eqb a b) eqn:E.
  - apply str_eqb_eq in E. eexists; split; [reflexivity|].
    simpl. split; [discriminate | tauto].
  - apply str_eqb_neq in E. eexists; split; [reflexivity|].
    simpl. rewrite (edit_script_reports_change diffChars a b Hscript E). tauto.
Qed.

Lemma text_path_changed_iff_differ_witness :
  edit_script Sample.diffChars
  /\ exists r,
       Combined.diff Sample.parse Sample.diffChars
         (VString (js "1 < 2")) (VString (js "1 > 2")) = Return r
       /\ (changed r = true <-> js "1 < 2" <> js "1 > 2").
Proof.
  split; [exact sample_diffChars_edit_script|].
  exact (text_path_changed_iff_differ Sample.parse Sample.diffChars
           (js "1 < 2") (js "1 > 2") sample_diffChars_edit_script
           eq_refl eq_refl).
Defined.

(** ** More on [escapeHtml] *)

Lemma escape_char_which (c : N) :
  (escape_char c = [c]
   /\ c <> AMP /\ c <> LT /\ c <> GT /\ c <> QUOT /\ c <> APOS)
  \/ c = AMP \/ c = LT \/ c = GT \/ c = QUOT \/ c = APOS.
Proof.
  unfold escape_char.
  destruct (N.eqb_spec c AMP); [tauto|].
  destruct (N.eqb_spec c LT); [tauto|].
  destruct (N.eqb_spec c GT); [tauto|].
  destruct (N.eqb_spec c QUOT); [tauto|].
  destruct (N.eqb_spec c APOS); tauto.
Qed.

(** The escaped forms of two code units never overlap: where two escaped
    strings agree, their first code units agree. *)
Lemma escape_char_prefix_free (c1 c2 : N) (r1 r2 : jsstring) :
  escape_char c1 ++ r1 = escape_char c2 ++ r2 -> c1 = c2 /\ r1 = r2.
Proof.
  destruct (escape_char_which c1) as [(E1 & A1 & _)|H1],
           (escape_char_which c2) as [(E2 & A2 & _)|H2].
  - rewrite E1, E2. now intros [= -> ->].
  - rewrite E1.
    destruct H2 as [->|[->|[->|[->| ->]]]]; cbn; intros [= -> _];
      now contradiction A1.
  - rewrite E2.
    destruct H1 as [->|[->|[->|[->| ->]]]]; cbn; intros [= <- _];
      now contradiction A2.
  - destruct H1 as [->|[->|[->|[->| ->]]]],
             H2 as [->|[->|[->|[->| ->]]]]; cbn; intros H;
      try discriminate H; injection H as ->; auto.
Qed.

Lemma escape_char_nonempty (c : N) : escape_char c <> [].
Proof.
  destruct (escape_char_which c) as [(-> & _)|H]; [discriminate|].
  destruct H as [->|[->|[->|[->| ->]]]]; discriminate.
Qed.

Lemma escape_char_length (c : N) : 1 <= List.length (escape_char c).
Proof.
  destruct (escape_char_which c) as [(-> & _)|H]; [simpl; lia|].
  destruct H as [->|[->|[->|[->| ->]]]]; cbn; lia.
Qed.

Lemma escapeHtml_length (text : jsstring) :
  List.length text <= List.length (Preview.escapeHtml text).
Proof.
  rewrite escapeHtml_by_char.
  induction text as [|c text IH]; simpl; [lia|].
  rewrite length_app. pose proof (escape_char_length c). lia.
Qed.

(** X17.  [escapeHtml] loses nothing: two texts with the same escaped form
    are the same text. *)
Theorem escapeHtml_injective (s t : jsstring) :
  Preview.escapeHtml s = Preview.escapeHtml t -> s = t.
Proof.
  rewrite !escapeHtml_by_char.
  revert t; induction s as [|c s IH]; intros [|c' t]; simpl; intros H.
  - reflexivity.
  - symmetry in H. apply app_eq_nil in H as [H _].
    now apply escape_char_nonempty in H.
  - apply app_eq_nil in H as [H _]. now apply escape_char_nonempty in H.
  - apply escape_char_prefix_free in H as [-> H]. now rewrite (IH t H).
Qed.

Lemma escapeHtml_injective_witness :
  Preview.escapeHtml (js "a<b") = Preview.escapeHtml (js "a<b")
  /\ js "a<b" = js "a<b".
Proof.
  split; [reflexivity|].
  exact (escapeHtml_injective (js "a<b") (js "a<b") eq_refl).
Defined.

(** X18.  [escapeHtml] never shortens a text, and it returns the text
    itself exactly when the text holds none of [&], [<], [>], the double
    quote and the apostrophe. *)
Theorem escapeHtml_fixes_plain_text (text : jsstring) :
  List.length text <= List.length (Preview.escapeHtml text)
  /\ (Preview.escapeHtml text = text <->
      markup_free text && forallb (fun c => negb (c =? AMP)%N) text = true).
Proof.
  split; [apply escapeHtml_length|].
  split.
  - intros H. induction text as [|c text IH]; [reflexivity|].
    pose proof (escapeHtml_length text) as Hlen.
    rewrite escapeHtml_by_char in *. simpl in H.
    destruct (escape_char_which c) as [(E & A1 & A2 & A3 & A4 & A5)|Hc].
    + rewrite E in H. injection H as H. specialize (IH H).
      apply andb_prop in IH as [I1 I2].
      unfold markup_free in *. simpl. rewrite I1, I2.
      apply N.eqb_neq in A1, A2, A3, A4, A5.
      now rewrite A1, A2, A3, A4, A5.
    + exfalso.
      apply (f_equal (@List.length _)) in H. rewrite length_app in H.
      simpl in H.
      destruct Hc as [->|[->|[->|[->| ->]]]]; cbn in H; lia.
  - intros H. rewrite escapeHtml_by_char.
    induction text as [|c text IH]; [reflexivity|].
    apply andb_prop in H as [H1 H2]. unfold markup_free in H1.
    simpl in H1, H2.
    apply andb_prop in H1 as [Hc H1], H2 as [Ha H2].
    simpl. rewrite IH by (unfold markup_free; now rewrite H1, H2).
    unfold escape_char.
    apply andb_prop in Hc as [Hc Hq]. apply andb_prop in Hc as [Hc Hg].
    apply andb_prop in Hc as [Hl Hgt].
    apply negb_true_iff in Ha, Hl, Hgt, Hg, Hq.
    now rewrite Ha, Hl, Hgt, Hg, Hq.
Qed.

Lemma escapeHtml_fixes_plain_text_witness :
  markup_free (js "plain text; 100%") && forallb (fun c => negb (c =? AMP)%N)
                                           (js "plain text; 100%") = true
  /\ Preview.escapeHtml (js "plain text; 100%") = js "plain text; 100%".
Proof.
  split; [reflexivity|].
  exact (proj2 (proj2 (escapeHtml_fixes_plain_text (js "plain text; 100%")))
           eq_refl).
Defined.

(** ** More on the attribute comparison *)

(** X19.  Swapping the two attribute lists swaps the reports: what one
    direction calls removed the other calls added, with the same name and
    value, and a changed value is reported in both with its two values
    exchanged. *)
Theorem attribute_differences_swap (path : jsstring) (oa na : list attr)
  (k v w : jsstring) :
  (In (AttributeRemoved path k v) (Combined.compareAttrs path oa na []) <->
   In (AttributeAdded path k v) (Combined.compareAttrs path na oa []))
  /\ (In (AttributeChanged path k v w) (Combined.compareAttrs path oa na []) <->
      In (AttributeChanged path k w v) (Combined.compareAttrs path na oa [])).
Proof.
  split.
  - rewrite removed_iff, added_iff. tauto.
  - rewrite !changed_iff. split; intros (H1 & H2 & H3); repeat split; auto.
Qed.

Lemma attribute_differences_swap_witness :
  In (AttributeAdded (js "0") (js "id") (js "x"))
    (Combined.compareAttrs (js "0")
       [Attr (js "class") (js "c")]
       [Attr (js "class") (js "c"); Attr (js "id") (js "x")] []).
Proof.
  apply (proj1 (proj1 (attribute_differences_swap (js "0")
                         [Attr (js "class") (js "c"); Attr (js "id") (js "x")]
                         [Attr (js "class") (js "c")]
                         (js "id") (js "x") (js "x")))).
  simpl. now left.
Defined.

Lemma get_permutation (m1 m2 : InsertionMap.t jsstring jsstring) (k : jsstring) :
  NoDup (InsertionMap.keys m1) -> Permutation m1 m2 ->
  InsertionMap.get str_eqb k m1 = InsertionMap.get str_eqb k m2.
Proof.
  intros Hnd Hp.
  assert (Hnd2 : NoDup (InsertionMap.keys m2)).
  { unfold InsertionMap.keys in *.
    eapply Permutation_NoDup; [|exact Hnd]. now apply Permutation_map. }
  destruct (InsertionMap.get str_eqb k m1) as [v|] eqn:E1.
  - symmetry. apply (In_get_Some _ _ _ str_eqb_eq); [exact Hnd2|].
    apply (Permutation_in _ Hp).
    now apply (get_Some_In _ _ _ str_eqb_eq).
  - destruct (InsertionMap.get str_eqb k m2) as [v|] eqn:E2; [|reflexivity].
    apply (get_Some_In _ _ _ str_eqb_eq) in E2.
    apply (Permutation_in _ (Permutation_sym Hp)) in E2.
    apply (In_get_Some _ _ _ str_eqb_eq) in E2; [congruence | exact Hnd].
Qed.

Lemma compareAttrs_permutation (path : jsstring) (oa na : list attr)
  (d : list difference) :
  NoDup (List.map name oa) -> Permutation oa na ->
  Combined.compareAttrs path oa na d = d.
Proof.
  intros Hnd Hp.
  assert (Hnd' : NoDup (List.map name na)).
  { eapply Permutation_NoDup; [|exact Hnd]. now apply Permutation_map. }
  assert (E : Combined.compareAttrs path oa na [] = []).
  { apply compareAttrs_silent_iff. intros k.
    rewrite (attrMap_distinct_names oa Hnd), (attrMap_distinct_names na Hnd').
    apply get_permutation.
    - unfold InsertionMap.keys. now rewrite map_map.
    - now apply Permutation_map. }
  rewrite compareAttrs_passes. rewrite compareAttrs_passes in E.
  simpl in E. rewrite E. apply app_nil_r.
Qed.

(** X20.  The order of an element's attributes is not compared: an
    element and the same element with its attributes in another order
    (names distinct, as the parser delivers them) give no difference. *)
Theorem attribute_order_ignored
  (diffChars : jsstring -> jsstring -> list part)
  (tag : jsstring) (oa na : list attr) (children : list node)
  (d : list difference) (path : jsstring) :
  text_has_value (Element tag oa children) = true ->
  NoDup (List.map name oa) -> Permutation oa na ->
  Combined.compareNodes diffChars
    (Some (Element tag oa children)) (Some (Element tag na children)) d path
  = Return d.
Proof.
  intros Hwf Hnd Hp. unfold Combined.compareNodes.
  rewrite compareNodes_present_eq.
  assert (Ht : str_eqb tag (js "#text") = false).
  { simpl in Hwf. now destruct (str_eqb tag (js "#text")). }
  set (o := Element tag oa children). set (n := Element tag na children).
  assert (Htag : Combined.compareTags o n path d = d).
  { unfold Combined.compareTags. simpl nodeName. now rewrite str_eqb_refl. }
  assert (Hval : Combined.compareValues diffChars o n path d = Return d).
  { unfold Combined.compareValues. simpl nodeName. now rewrite Ht. }
  assert (Hattr : Combined.compareAttrs_if_present o n path d = d).
  { unfold Combined.compareAttrs_if_present. cbn [attrs o n].
    now apply compareAttrs_permutation. }
  rewrite Htag, Hval. cbn [bind]. rewrite Hattr.
  cbn [childNodes_or_empty o n].
  rewrite <- (app_nil_r children) at 2.
  rewrite compareChildren_same.
  - reflexivity.
  - apply Forall_forall. intros x _ d' p. apply compareNodes_present_same.
  - exact (text_has_value_children _ Hwf).
Qed.

Lemma attribute_order_ignored_witness :
  Combined.compareNodes Sample.diffChars
    (Some (Element (js "a")
             [Attr (js "href") (js "/x"); Attr (js "class") (js "c")]
             [Text (js "x")]))
    (Some (Element (js "a")
             [Attr (js "class") (js "c"); Attr (js "href") (js "/x")]
             [Text (js "x")]))
    [] (js "0/1/0")
  = Return [].
Proof.
  apply attribute_order_ignored.
  - reflexivity.
  - repeat constructor; simpl; intuition discriminate.
  - apply perm_swap.
Defined.

(** ** More on the co-traversal *)

(** X3.  A well-formed tree compared with itself adds no difference,
    whatever its shape, attributes and texts. *)
Theorem tree_against_itself_silent
  (diffChars : jsstring -> jsstring -> list part)
  (o : node) (d : list difference) (path : jsstring) :
  text_has_value o = true ->
  Combined.compareNodes diffChars (Some o) (Some o) d path = Return d.
Proof. intros H. now apply compareNodes_present_same. Qed.

Lemma tree_against_itself_silent_witness :
  Combined.compareNodes Sample.diffChars
    (Some Sample.div_hello) (Some Sample.div_hello) [] []
  = Return [].
Proof. now apply tree_against_itself_silent. Defined.

Lemma compareChildren_same_then_removed
  (compare : node -> node -> list difference -> jsstring
             -> completion (list difference))
  (path : jsstring) (cs extra : list node) (i : nat) (d : list difference) :
  Forall (fun o => forall d p, text_has_value o = true ->
                               compare o o d p = Return d) cs ->
  forallb text_has_value cs = true ->
  Combined.compareChildren compare path (cs ++ extra) cs i d
  = Return (d ++ List.map
                   (fun jc => Removed (childPath path (fst jc)) (Some (snd jc)))
                   (combine (seq (i + List.length cs) (List.length extra)) extra)).
Proof.
  intros H; revert i d; induction H as [|o cs Ho _ IH]; intros i d Hwf.
  - simpl app. rewrite compareChildren_new_exhausted.
    simpl List.length. now rewrite Nat.add_0_r.
  - simpl in Hwf. apply andb_prop in Hwf as [Hwo Hwf]. simpl.
    rewrite Ho by exact Hwo. simpl. rewrite IH by exact Hwf.
    now rewrite Nat.add_succ_r.
Qed.

(** X4.  Children appended to an element, all else equal, are reported
    one [added] each, at the child's own path and carrying the child with
    everything below it; in the other direction one [removed] each.
    Nothing is reported for their descendants. *)
Theorem appended_children_reported_whole
  (diffChars : jsstring -> jsstring -> list part)
  (tag : jsstring) (a : list attr) (cs extra : list node)
  (d : list difference) (path : jsstring) :
  text_has_value (Element tag a cs) = true ->
  Combined.compareNodes diffChars
    (Some (Element tag a cs)) (Some (Element tag a (cs ++ extra))) d path
  = Return (d ++ List.map
                   (fun jc => Added (childPath path (fst jc)) (Some (snd jc)))
                   (combine (seq (List.length cs) (List.length extra)) extra))
  /\ Combined.compareNodes diffChars
       (Some (Element tag a (cs ++ extra))) (Some (Element tag a cs)) d path
     = Return (d ++ List.map
                      (fun jc => Removed (childPath path (fst jc)) (Some (snd jc)))
                      (combine (seq (List.length cs) (List.length extra)) extra)).
Proof.
  intros Hwf. unfold Combined.compareNodes.
  assert (Ht : str_eqb tag (js "#text") = false).
  { simpl in Hwf. now destruct (str_eqb tag (js "#text")). }
  assert (Hcs : forallb text_has_value cs = true)
    by exact (text_has_value_children _ Hwf).
  assert (Hsame : Forall (fun o => forall d p, text_has_value o = true ->
                    Combined.compareNodes_present diffChars o o d p = Return d) cs).
  { apply Forall_forall. intros x _ d' p. apply compareNodes_present_same. }
  assert (Hblocks : forall c1 c2,
    Combined.compareNodes_present diffChars
      (Element tag a c1) (Element tag a c2) d path
    = Combined.compareChildren (Combined.compareNodes_present diffChars)
        path c1 c2 0 d).
  { intros c1 c2. rewrite compareNodes_present_eq.
    unfold Combined.compareTags, Combined.compareValues,
      Combined.compareAttrs_if_present.
    simpl nodeName. rewrite str_eqb_refl, Ht. cbn [negb andb bind attrs].
    now rewrite compareAttrs_same. }
  split; rewrite Hblocks.
  - rewrite compareChildren_same by assumption.
    now rewrite compareRest_app, compareRest_eq.
  - now rewrite compareChildren_same_then_removed by assumption.
Qed.

Lemma appended_children_reported_whole_witness :
  Combined.compareNodes Sample.diffChars
    (Some (Element (js "ul") [] [Element (js "li") [] [Text (js "a")]]))
    (Some (Element (js "ul") []
             [Element (js "li") [] [Text (js "a")];
              Element (js "li") [] [Element (js "b") [] [Text (js "c")]]]))
    [] (js "0/1/0")
  = Return [Added (js "0/1/0/1")
              (Some (Element (js "li") [] [Element (js "b") [] [Text (js "c")]]))].
Proof.
  exact (proj1 (appended_children_reported_whole Sample.diffChars
                  (js "ul") [] [Element (js "li") [] [Text (js "a")]]
                  [Element (js "li") [] [Element (js "b") [] [Text (js "c")]]]
                  [] (js "0/1/0") eq_refl)).
Defined.

(** X6.  [compareNodes] only pushes: the array it is handed comes back as
    a prefix of the result, and what follows does not depend on it.  A
    throw does not depend on it either. *)
Theorem compareNodes_only_appends
  (diffChars : jsstring -> jsstring -> list part)
  (o n : option node) (d : list difference) (path : jsstring) :
  Combined.compareNodes diffChars o n d path
  = bind (Combined.compareNodes diffChars o n [] path)
      (fun pushed => Return (d ++ pushed)).
Proof. apply (compareNodes_appends diffChars o n path d). Qed.

(** ** Every difference is true of the position its path names *)

Section Soundness.
Variable diffChars : jsstring -> jsstring -> list part.

Local Abbreviation present := (Combined.compareNodes_present diffChars).

Lemma compareTags_sound (o n : node) (path : jsstring) (x : difference) :
  In x (Combined.compareTags o n path []) ->
  path_of x = Some path /\ reports diffChars x (Some o) (Some n).
Proof.
  unfold Combined.compareTags.
  destruct (str_eqb (nodeName o) (nodeName n)) eqn:E; simpl; [tauto|].
  destruct (negb _); simpl; [|tauto].
  intros [<-|[]]. split; [reflexivity|]. simpl.
  exists o, n. repeat split; auto. now apply str_eqb_neq.
Qed.

Lemma compareValues_sound (o n : node) (path : jsstring)
  (t : list difference) (x : difference) :
  Combined.compareValues diffChars o n path [] = Return t -> In x t ->
  path_of x = Some path /\ reports diffChars x (Some o) (Some n).
Proof.
  unfold Combined.compareValues.
  destruct (_ && _); [|intros [= <-] []].
  destruct o as [c|c|dn|dc|a|tg at' c]; simpl; try discriminate.
  destruct n as [c|c|dn|dc|b|tg at' c]; simpl; try discriminate.
  destruct (str_eqb (trim a) (trim b)) eqn:E; simpl; [intros [= <-] []|].
  intros [= <-] [<-|[]]. split; [reflexivity|]. simpl.
  exists a, b. repeat split; auto. now apply str_eqb_neq.
Qed.

Lemma compareAttrs_sound (o n : node) (path : jsstring) (x : difference) :
  In x (Combined.compareAttrs_if_present o n path []) ->
  path_of x = Some path /\ reports diffChars x (Some o) (Some n).
Proof.
  unfold Combined.compareAttrs_if_present.
  destruct (attrs o) as [oa|] eqn:Eo; [|intros []].
  destruct (attrs n) as [na|] eqn:En; [|intros []].
  intros Hin.
  pose proof (compareAttrs_only_attributes path oa na) as Hall.
  rewrite Forall_forall in Hall. destruct (Hall x Hin) as [Hp Ha].
  split; [exact Hp|].
  destruct x; simpl in Hp, Ha; try congruence; injection Hp as ->; simpl;
    exists o, n, oa, na.
  - apply removed_iff in Hin as [H1 H2]. repeat split; auto.
  - apply changed_iff in Hin as (H1 & H2 & H3). repeat split; auto.
  - apply added_iff in Hin as [H1 H2]. repeat split; auto.
Qed.

Lemma in_combine_seq {A : Type} (l : list A) (i j : nat) (c : A) :
  In (j, c) (combine (seq i (List.length l)) l) ->
  exists k, j = i + k /\ nth_error l k = Some c.
Proof.
  revert i; induction l as [|x l IH]; intros i; simpl; [tauto|].
  intros [[= <- <-]|H].
  - exists 0. split; [lia | reflexivity].
  - destruct (IH (S i) H) as (k & -> & Hk). exists (S k). split; [lia | exact Hk].
Qed.

Lemma compareChildren_sound (path : jsstring) (oc nc : list node) (i : nat)
  (c : list difference) (x : difference) :
  Forall (fun o => forall n p ds y,
            present o n [] p = Return ds -> In y ds ->
            exists js, path_of y = Some (path_from p js)
                       /\ reports diffChars y (node_at js o) (node_at js n)) oc ->
  Combined.compareChildren present path oc nc i [] = Return c -> In x c ->
  exists k js,
    path_of x = Some (path_from (childPath path (i + k)) js)
    /\ reports diffChars x
         (match nth_error oc k with Some o => node_at js o | None => None end)
         (match nth_error nc k with Some n => node_at js n | None => None end).
Proof.
  intros H; revert nc i c; induction H as [|o oc Ho _ IH]; intros nc i c.
  - simpl. rewrite compareRest_eq. intros [= <-] Hin.
    apply in_map_iff in Hin as ([j cj] & <- & Hin).
    apply in_combine_seq in Hin as (k & -> & Hk).
    exists k, []. simpl. rewrite Hk. split; [reflexivity|].
    destruct k; simpl; repeat split; discriminate.
  - destruct nc as [|n nc].
    + rewrite compareChildren_new_exhausted. intros [= <-] Hin.
      change (In x (List.map
                      (fun jc => Removed (childPath path (fst jc)) (Some (snd jc)))
                      (combine (seq i (List.length (o :: oc))) (o :: oc))))
        in Hin.
      apply in_map_iff in Hin as ([j cj] & <- & Hin).
      apply in_combine_seq in Hin as (k & -> & Hk).
      exists k, []. simpl fst. simpl snd. rewrite Hk.
      split; [reflexivity|].
      destruct k; simpl; repeat split; discriminate.
    + simpl.
      destruct (present o n [] (childPath path i)) as [d1|e] eqn:E1;
        simpl; [|discriminate].
      rewrite (compareChildren_appends present path oc nc (S i)).
      2: { apply Forall_forall. intros z _ m p.
           apply compareNodes_present_appends. }
      destruct (Combined.compareChildren present path oc nc (S i) [])
        as [c'|e] eqn:E2; simpl; [|discriminate].
      intros [= <-] Hin. apply in_app_or in Hin as [Hin|Hin].
      * destruct (Ho n _ _ x E1 Hin) as (js & Hp & Hr).
        exists 0, js. rewrite Nat.add_0_r. now split.
      * destruct (IH nc (S i) c' E2 Hin) as (k & js & Hp & Hr).
        exists (S k), js. rewrite Nat.add_succ_r. now split.
Qed.

Lemma compareNodes_present_sound (o n : node) (path : jsstring)
  (ds : list difference) (x : difference) :
  present o n [] path = Return ds -> In x ds ->
  exists js, path_of x = Some (path_from path js)
             /\ reports diffChars x (node_at js o) (node_at js n).
Proof.
  revert n path ds x.
  assert (step : forall o,
    Forall (fun o => forall n p ds y,
              present o n [] p = Return ds -> In y ds ->
              exists js, path_of y = Some (path_from p js)
                         /\ reports diffChars y (node_at js o) (node_at js n))
      (childNodes_or_empty o) ->
    forall n path ds x,
      present o n [] path = Return ds -> In x ds ->
      exists js, path_of x = Some (path_from path js)
                 /\ reports diffChars x (node_at js o) (node_at js n)).
  { clear o. intros o Hc n path ds x.
    rewrite compareNodes_present_blocks.
    destruct (Combined.compareValues diffChars o n path []) as [t|e] eqn:Et;
      simpl; [|discriminate].
    destruct (Combined.compareChildren _ _ _ _ _ _) as [c|e] eqn:Ec;
      simpl; [|discriminate].
    intros [= <-] Hin.
    apply in_app_or in Hin as [Hin|Hin];
      [exists []; now apply compareTags_sound|].
    apply in_app_or in Hin as [Hin|Hin];
      [exists []; now apply (compareValues_sound o n path t)|].
    apply in_app_or in Hin as [Hin|Hin];
      [exists []; now apply compareAttrs_sound|].
    destruct (compareChildren_sound path _ _ 0 c x Hc Ec Hin)
      as (k & js & Hp & Hr).
    exists (k :: js). split; [exact Hp|]. exact Hr. }
  induction o using node_forall_ind; intros; eapply step; simpl; eauto.
Qed.
End Soundness.

(** X7.  Every difference [compareNodes] reports carries the path of a
    position reached from the compared pair by child indices, and is true
    of the two nodes at that position: [added] and [removed] carry a node
    missing on the other side, [changed] the two different names, an
    attribute difference what the two attribute maps hold for its key, a
    text difference the diff of the two trimmed, unequal text values. *)
Theorem differences_sound
  (diffChars : jsstring -> jsstring -> list part)
  (o n : node) (path : jsstring) (ds : list difference) :
  Combined.compareNodes diffChars (Some o) (Some n) [] path = Return ds ->
  Forall (fun x =>
            exists indices,
              path_of x = Some (path_from path indices)
              /\ reports diffChars x (node_at indices o) (node_at indices n))
    ds.
Proof.
  intros H. apply Forall_forall. intros x Hin.
  exact (compareNodes_present_sound diffChars o n path ds x H Hin).
Qed.

Lemma differences_sound_witness :
  Combined.compareNodes Sample.diffChars
    (Some Sample.p_a) (Some Sample.p_b) [] []
  = Return [TextDifference (Some (js "0/1/0/0"))
              [Change SegRemoved (js "a"); Change SegAdded (js "b")]]
  /\ Forall (fun x =>
               exists indices,
                 path_of x = Some (path_from [] indices)
                 /\ reports Sample.diffChars x
                      (node_at indices Sample.p_a) (node_at indices Sample.p_b))
       [TextDifference (Some (js "0/1/0/0"))
          [Change SegRemoved (js "a"); Change SegAdded (js "b")]].
Proof.
  split; [reflexivity|].
  now apply (differences_sound Sample.diffChars Sample.p_a Sample.p_b []).
Defined.

(** ** The changes of a text difference *)

Lemma changes_sides (parts : list part) :
  forallb (fun p => negb (added p && removed p)) parts = true ->
  old_text (List.map change_of_part parts) = old_side parts
  /\ new_text (List.map change_of_part parts) = new_side parts.
Proof.
  unfold old_text, new_text, old_side, new_side, join.
  induction parts as [|[v a r] parts IH]; simpl; [auto|].
  intros H. apply andb_prop in H as [Hp H]. destruct (IH H) as [IH1 IH2].
  destruct a, r; try discriminate Hp; cbn; split; congruence.
Qed.

Lemma sample_diffChars_flags_exclusive : flags_exclusive Sample.diffChars.
Proof.
  intros a b. unfold Sample.diffChars.
  destruct (str_eqb a b); destruct a, b; reflexivity.
Qed.

(** X10.  The changes of a reported text difference spell both texts:
    read without the added changes they give the old text, without the
    removed ones the new text.  For a text difference of [compareNodes]
    these are the trimmed values of the two text nodes at its path, for
    the difference of [compareText] the two inputs themselves
    ([diffChars] answering with an edit script whose parts are not
    flagged both ways). *)
Theorem text_changes_spell_both_texts (parse : jsstring -> node)
  (diffChars : jsstring -> jsstring -> list part) :
  edit_script diffChars -> flags_exclusive diffChars ->
  (forall o n path ds p changes,
     Combined.compareNodes diffChars (Some o) (Some n) [] path = Return ds ->
     In (TextDifference p changes) ds ->
     exists indices a b,
       p = Some (path_from path indices)
       /\ node_at indices o = Some (Text a)
       /\ node_at indices n = Some (Text b)
       /\ old_text changes = trim a /\ new_text changes = trim b)
  /\ (forall a b r p changes,
        Combined.compareText diffChars (VString a) (VString b) = Return r ->
        In (TextDifference p changes) (differences r) ->
        p = None /\ old_text changes = a /\ new_text changes = b).
Proof.
  intros Hscript Hflags. split.
  - intros o n path ds p changes H Hin.
    destruct (compareNodes_present_sound diffChars o n path ds _ H Hin)
      as (js & Hp & a & b & Ho & Hn & Hne & ->).
    exists js, a, b. simpl in Hp. repeat split; auto.
    + destruct (changes_sides _ (Hflags (trim a) (trim b))) as [-> _].
      apply Hscript.
    + destruct (changes_sides _ (Hflags (trim a) (trim b))) as [_ ->].
      apply Hscript.
  - intros a b r p changes. unfold Combined.compareText. simpl.
    destruct (str_eqb a b); [intros [= <-] []|].
    intros [= <-] [[= <- <-]|[]].
    destruct (changes_sides _ (Hflags a b)) as [-> ->].
    destruct (Hscript a b) as [-> ->]. auto.
Qed.

Lemma text_changes_spell_both_texts_witness :
  edit_script Sample.diffChars /\ flags_exclusive Sample.diffChars
  /\ exists indices a b,
       Some (js "0/1/0/0") = Some (path_from [] indices)
       /\ node_at indices Sample.p_a = Some (Text a)
       /\ node_at indices Sample.p_b = Some (Text b)
       /\ old_text [Change SegRemoved (js "a"); Change SegAdded (js "b")] = trim a
       /\ new_text [Change SegRemoved (js "a"); Change SegAdded (js "b")] = trim b.
Proof.
  split; [exact sample_diffChars_edit_script|].
  split; [exact sample_diffChars_flags_exclusive|].
  apply (proj1 (text_changes_spell_both_texts Sample.parse Sample.diffChars
                  sample_diffChars_edit_script sample_diffChars_flags_exclusive)
           Sample.p_a Sample.p_b []
           [TextDifference (Some (js "0/1/0/0"))
              [Change SegRemoved (js "a"); Change SegAdded (js "b")]]);
    [reflexivity | now left].
Defined.

(** ** Paths *)

Lemma digits_inj (u v : Decimal.uint) : digits u = digits v -> u = v.
Proof.
  revert v; induction u; intros []; simpl; intros H;
    try discriminate H; try reflexivity;
    injection H as H; f_equal; auto.
Qed.

Lemma digits_no_slash (u : Decimal.uint) : ~ In 47%N (digits u).
Proof.
  induction u; simpl; intros H; try tauto;
    destruct H as [H|H]; try discriminate H; auto.
Qed.

Lemma String_of_index_inj (i j : nat) :
  String_of_index i = String_of_index j -> i = j.
Proof.
  unfold String_of_index. intros H.
  apply digits_inj in H. now apply Unsigned.to_uint_inj.
Qed.

Lemma String_of_index_no_slash (i : nat) : ~ In 47%N (String_of_index i).
Proof. apply digits_no_slash. Qed.

Lemma String_of_index_nonempty (i : nat) : String_of_index i <> [].
Proof.
  unfold String_of_index. intros H.
  assert (E : Nat.to_uint i = Decimal.Nil) by (destruct (Nat.to_uint i); easy).
  pose proof (Unsigned.to_of (Nat.to_uint i)) as Hu.
  rewrite Unsigned.of_to in Hu. rewrite Hu in E.
  now apply DecimalFacts.unorm_nonnil in E.
Qed.

Lemma path_from_nonempty (path : jsstring) (indices : list nat) :
  path <> [] -> path_from path indices = path ++ path_tail indices.
Proof.
  revert path; induction indices as [|i indices IH]; intros path H; simpl.
  - now rewrite app_nil_r.
  - unfold path_from in *. simpl.
    assert (E : childPath path i = path ++ js "/" ++ String_of_index i)
      by (destruct path; [contradiction | reflexivity]).
    rewrite E, IH.
    + unfold path_tail. simpl. now rewrite <- !app_assoc.
    + destruct path; [contradiction | discriminate].
Qed.

Lemma path_from_root (i : nat) (indices : list nat) :
  path_from [] (i :: indices) = String_of_index i ++ path_tail indices.
Proof.
  unfold path_from. simpl.
  apply (path_from_nonempty (String_of_index i)), String_of_index_nonempty.
Qed.

(** Where a run of digits ends is determined by what follows it. *)
Lemma digits_then_slash (d1 d2 t1 t2 : jsstring) :
  ~ In 47%N d1 -> ~ In 47%N d2 ->
  (t1 = [] \/ exists r, t1 = 47%N :: r) ->
  (t2 = [] \/ exists r, t2 = 47%N :: r) ->
  d1 ++ t1 = d2 ++ t2 -> d1 = d2 /\ t1 = t2.
Proof.
  revert d2; induction d1 as [|c d1 IH]; intros [|c' d2] H1 H2 T1 T2; simpl.
  - auto.
  - intros ->. exfalso. destruct T1 as [T1|[r T1]]; [discriminate|].
    injection T1 as Hc _. apply H2. now left.
  - intros <-. exfalso. destruct T2 as [T2|[r T2]]; [discriminate|].
    injection T2 as Hc _. apply H1. now left.
  - intros [= -> H].
    destruct (IH d2) as [-> ->]; auto;
      intros Hin; [apply H1 | apply H2]; now right.
Qed.

Lemma path_tail_shape (indices : list nat) :
  path_tail indices = [] \/ exists r, path_tail indices = 47%N :: r.
Proof. destruct indices; [now left | right; simpl; eauto]. Qed.

Lemma path_tail_inj (is1 is2 : list nat) :
  path_tail is1 = path_tail is2 -> is1 = is2.
Proof.
  revert is2; induction is1 as [|i is1 IH]; intros [|j is2]; simpl;
    try discriminate; [reflexivity|].
  intros [= H].
  apply digits_then_slash in H as [Hi Ht];
    auto using String_of_index_no_slash, path_tail_shape.
  apply String_of_index_inj in Hi. subst. now rewrite (IH is2 Ht).
Qed.

Lemma path_from_inj (path : jsstring) (is1 is2 : list nat) :
  path_from path is1 = path_from path is2 -> is1 = is2.
Proof.
  destruct path as [|c path].
  - destruct is1 as [|i is1], is2 as [|j is2]; try reflexivity.
    + rewrite path_from_root. intros H.
      change (path_from [] []) with (@nil N) in H.
      symmetry in H. apply app_eq_nil in H as [H _].
      now apply String_of_index_nonempty in H.
    + rewrite path_from_root. intros H.
      change (path_from [] []) with (@nil N) in H.
      apply app_eq_nil in H as [H _].
      now apply String_of_index_nonempty in H.
    + rewrite !path_from_root. intros H.
      apply digits_then_slash in H as [Hi Ht];
        auto using String_of_index_no_slash, path_tail_shape.
      apply String_of_index_inj in Hi. apply path_tail_inj in Ht. now subst.
  - rewrite !path_from_nonempty by discriminate. intros H.
    apply app_inv_head in H. now apply path_tail_inj.
Qed.

(** X8.  Paths tell positions apart: two different ways down from a node
    never give the same path, whatever the node's own path is. *)
Theorem path_from_injective (path : jsstring) (is1 is2 : list nat) :
  path_from path is1 = path_from path is2 -> is1 = is2.
Proof. apply path_from_inj. Qed.

Lemma path_from_injective_witness :
  path_from (js "0/1") [1; 10] = path_from (js "0/1") [1; 10]
  /\ path_from (js "0/1") [1; 10] = js "0/1/1/10"
  /\ [1; 10] = [1; 10].
Proof.
  split; [reflexivity|]. split; [reflexivity|].
  exact (path_from_injective (js "0/1") [1; 10] [1; 10] eq_refl).
Defined.

(** ** The entry points of seperated.js against those of combined.js *)

(** X11.  On every pair of inputs the two [diff]s take the same path and
    end alike: both throw, or they agree on [changed].  On the HTML path
    the separated lists are the structural and textual entries of the
    combined list; on the text path the separated [differences] are the
    changes that the combined result wraps in its single text difference
    (and both are empty for identical inputs). *)
Theorem separated_diff_agrees (parse : jsstring -> node)
  (diffChars : jsstring -> jsstring -> list part)
  (oldContent newContent : jsvalue) :
  match Combined.diff parse diffChars oldContent newContent,
        Separated.diff parse diffChars oldContent newContent with
  | Return c, Return (inl s) =>
      htmlRegex_test (ToString oldContent)
      || htmlRegex_test (ToString newContent) = true
      /\ List.map tag_structural (Separated.structuralDifferences s)
         = filter is_structural (differences c)
      /\ List.map tag_text (Separated.textDifferences s)
         = filter is_textual (differences c)
      /\ Separated.changed s = changed c
  | Return c, Return (inr t) =>
      htmlRegex_test (ToString oldContent)
      || htmlRegex_test (ToString newContent) = false
      /\ Separated.text_changed t = changed c
      /\ differences c
         = (if strict_eq oldContent newContent then []
            else [TextDifference None (Separated.differences t)])
      /\ (if strict_eq oldContent newContent
          then Separated.differences t = [] else True)
  | Throw e, Throw e' => e = e'
  | _, _ => False
  end.
Proof.
  unfold Combined.diff, Separated.diff.
  destruct (htmlRegex_test (ToString oldContent)
            || htmlRegex_test (ToString newContent)).
  - unfold Combined.compareHTML, Separated.compareHTML.
    change (Separated.normalizeHtml) with (Combined.normalizeHtml).
    destruct (Combined.normalizeHtml oldContent) as [a|e]; simpl; [|reflexivity].
    destruct (Combined.normalizeHtml newContent) as [b|e]; simpl; [|reflexivity].
    destruct (str_eqb a b); [simpl; auto|].
    pose proof (compareNodes_present_related diffChars (parse a) (parse b) []
                  [] ([], []) (conj eq_refl eq_refl)) as H.
    destruct (Combined.compareNodes_present _ _ _ _ _) as [d|e],
             (Separated.compareNodes_present _ _ _ _ _) as [s|e'];
      simpl in *; try contradiction; auto.
    destruct H as [Hs Ht]. repeat split; auto.
    now apply partition_nonempty.
  - unfold Combined.compareText, Separated.compareText.
    destruct (strict_eq oldContent newContent); [simpl; auto|].
    destruct (Combined.diffChars_call diffChars oldContent newContent);
      simpl; auto.
Qed.

Lemma separated_diff_on_samples :
  Separated.diff Sample.parse Sample.diffChars
    (VString (js "kitten")) (VString (js "sitting"))
  = Return (inr (Separated.FlatResult true
                   [Change SegRemoved (js "kitten");
                    Change SegAdded (js "sitting")]))
  /\ Separated.diff Sample.parse Sample.diffChars
       (VString (js "<p>a</p>")) (VString (js "<p>b</p>"))
     = Return (inl (Separated.Result true []
                      [Separated.TextDiff (js "0/1/0/0")
                         [Change SegRemoved (js "a"); Change SegAdded (js "b")]])).
Proof. split; reflexivity. Qed.

(** ** The renderer's difference map *)

Lemma key_eqb_eq (a b : option jsstring) : Preview.key_eqb a b = true <-> a = b.
Proof.
  destruct a as [a|], b as [b|]; simpl; try (split; congruence).
  rewrite str_eqb_eq. split; congruence.
Qed.

Section MapLookup.
Variables (K V : Type) (eqb : K -> K -> bool).
Hypothesis eqb_eq : forall a b, eqb a b = true <-> a = b.

Lemma get_set (k k' : K) (v : V) (m : InsertionMap.t K V) :
  InsertionMap.get eqb k (InsertionMap.set eqb k' v m)
  = if eqb k' k then Some v else InsertionMap.get eqb k m.
Proof.
  induction m as [|[k2 v2] m IH]; simpl; [reflexivity|].
  destruct (eqb k2 k') eqn:E2; simpl.
  - apply eqb_eq in E2. subst k2. now destruct (eqb k' k).
  - rewrite IH. destruct (eqb k' k) eqn:E1, (eqb k2 k) eqn:E3; try reflexivity.
    apply eqb_eq in E1, E3. subst. rewrite (proj2 (eqb_eq k k) eq_refl) in E2.
    discriminate.
Qed.

Lemma find_app {A : Type} (p : A -> bool) (a b : list A) :
  find p (a ++ b) = match find p a with Some x => Some x | None => find p b end.
Proof.
  induction a as [|x a IH]; simpl; [reflexivity|]. now destruct (p x).
Qed.

(** A lookup in [new Map(entries)] finds the last entry with that key. *)
Lemma get_of_entries (k : K) (entries : list (K * V)) :
  InsertionMap.get eqb k (InsertionMap.of_entries eqb entries)
  = option_map snd (find (fun e => eqb (fst e) k) (rev entries)).
Proof.
  unfold InsertionMap.of_entries.
  assert (G : forall m,
    InsertionMap.get eqb k
      (fold_left (fun m kv => InsertionMap.set eqb (fst kv) (snd kv) m) entries m)
    = match find (fun e => eqb (fst e) k) (rev entries) with
      | Some e => Some (snd e)
      | None => InsertionMap.get eqb k m
      end).
  { induction entries as [|e entries IH]; intros m; simpl; [reflexivity|].
    rewrite IH, find_app. destruct (find _ (rev entries)); [reflexivity|].
    simpl. rewrite get_set. now destruct (eqb (fst e) k). }
  rewrite G. now destruct (find _ _).
Qed.
End MapLookup.

Lemma find_rev_map {A B : Type} (f : A -> B) (p : B -> bool) (l : list A) :
  option_map snd (find (fun e => p (fst e)) (rev (List.map (fun x => (f x, x)) l)))
  = find (fun x => p (f x)) (rev l).
Proof.
  rewrite <- map_rev. induction (rev l) as [|x r IH]; simpl; [reflexivity|].
  now destruct (p (f x)).
Qed.

Lemma diffMap_get_find (ds : list difference) (path : option jsstring) :
  InsertionMap.get Preview.key_eqb path (Preview.diffMap_of ds)
  = find (fun d => Preview.key_eqb (path_of d) path) (rev ds).
Proof.
  unfold Preview.diffMap_of.
  rewrite (get_of_entries _ _ _ key_eqb_eq).
  apply (find_rev_map path_of (fun k => Preview.key_eqb k path)).
Qed.

(** X12.  The renderer sees one difference per path, the last one
    reported there: a lookup in [diffMap] returns the last difference of
    the list that carries the path, and nothing when none does. *)
Theorem diffMap_last_difference_wins (ds : list difference)
  (path : option jsstring) :
  InsertionMap.get Preview.key_eqb path (Preview.diffMap_of ds)
  = find (fun d => Preview.key_eqb (path_of d) path) (rev ds).
Proof. apply diffMap_get_find. Qed.

Lemma diffMap_lookup_in (ds : list difference) (path : option jsstring)
  (d : difference) :
  InsertionMap.get Preview.key_eqb path (Preview.diffMap_of ds) = Some d ->
  In d ds /\ path_of d = path.
Proof.
  rewrite diffMap_get_find.
  intros H. apply find_some in H as [Hin Hk].
  split; [now apply in_rev | now apply key_eqb_eq].
Qed.

(** ** The renderer *)

(** [renderNode] as the source writes it, with the two uses it makes of
    [diffMap] read through [textual_lookup]. *)
Lemma renderNode_eq (m : InsertionMap.t (option jsstring) difference)
  (n : node) (path : jsstring) :
  Preview.renderNode m n path =
  if str_eqb (nodeName n) (js "#text") then
    match textual_lookup m path with
    | Some changes => Return (join (List.map Preview.renderChange changes))
    | None => Preview.escapeHtml_of (value n)
    end
  else if str_eqb (nodeName n) (js "#document")
          || str_eqb (nodeName n) (js "#document-fragment") then
    fmap join (Preview.renderChildren (Preview.renderNode m) path
                 (childNodes_or_empty n) 0)
  else
    _ <- match textual_lookup m path with
         | Some _ => Throw TypeError
         | None => Return tt
         end ;;
    children <- fmap join (Preview.renderChildren (Preview.renderNode m) path
                             (childNodes_or_empty n) 0) ;;
    Return (js "<" ++ nodeName n
            ++ match attrs n with
               | Some a => join (List.map Preview.renderAttr a)
               | None => []
               end
            ++ js ">" ++ children ++ js "</" ++ nodeName n ++ js ">").
Proof.
  unfold textual_lookup.
  destruct n as [c|c|dn|dc|v|t a c]; simpl;
    destruct (InsertionMap.get Preview.key_eqb (Some path) m) as [[]|];
    reflexivity.
Qed.

Lemma renderChildren_ext (r1 r2 : node -> jsstring -> completion jsstring)
  (path : jsstring) (cs : list node) (i : nat) :
  Forall (fun c => forall p, r1 c p = r2 c p) cs ->
  Preview.renderChildren r1 path cs i = Preview.renderChildren r2 path cs i.
Proof.
  intros H; revert i; induction H as [|c cs Hc _ IH]; intros i; simpl;
    [reflexivity|].
  now rewrite Hc, IH.
Qed.

(** The renderer reads [diffMap] only through the text differences it
    finds under the paths it visits. *)
Lemma renderNode_ext (m1 m2 : InsertionMap.t (option jsstring) difference)
  (n : node) (path : jsstring) :
  (forall p, textual_lookup m1 p = textual_lookup m2 p) ->
  Preview.renderNode m1 n path = Preview.renderNode m2 n path.
Proof.
  intros H. revert path.
  assert (step : forall n,
    Forall (fun c => forall p, Preview.renderNode m1 c p = Preview.renderNode m2 c p)
      (childNodes_or_empty n) ->
    forall path, Preview.renderNode m1 n path = Preview.renderNode m2 n path).
  { clear n. intros n Hc path. rewrite !renderNode_eq, H.
    now rewrite (renderChildren_ext _ _ path _ 0 Hc). }
  induction n using node_forall_ind; intros; apply step; simpl; auto.
Qed.

Lemma textual_lookup_empty (path : jsstring) : textual_lookup [] path = None.
Proof. reflexivity. Qed.

Lemma textual_lookup_none (ds : list difference) (path : jsstring) :
  Forall (fun d => is_structural d = true \/ path_of d = None) ds ->
  textual_lookup (Preview.diffMap_of ds) path = None.
Proof.
  intros H. unfold textual_lookup.
  destruct (InsertionMap.get _ _ _) as [d|] eqn:E; [|reflexivity].
  apply diffMap_lookup_in in E as [Hin Hp].
  rewrite Forall_forall in H. destruct (H d Hin) as [Hs|Hn].
  - now destruct d.
  - congruence.
Qed.

Lemma serialize_children (l : list node) :
  (fix inner (l : list node) : jsstring :=
     match l with [] => [] | c :: l' => serialize c ++ inner l' end) l
  = join (List.map serialize l).
Proof. induction l as [|c l IH]; simpl; [reflexivity | now rewrite IH]. Qed.

Lemma renderChildren_serialize
  (render : node -> jsstring -> completion jsstring)
  (path : jsstring) (cs : list node) (i : nat) :
  Forall (fun c => forall p, text_has_value c = true ->
                             render c p = Return (serialize c)) cs ->
  forallb text_has_value cs = true ->
  Preview.renderChildren render path cs i = Return (List.map serialize cs).
Proof.
  intros H; revert i; induction H as [|c cs Hc _ IH]; intros i Hwf; simpl;
    [reflexivity|].
  simpl in Hwf. apply andb_prop in Hwf as [Hw Hwf].
  now rewrite Hc, IH.
Qed.

Lemma renderNode_serialize (n : node) (path : jsstring) :
  text_has_value n = true ->
  Preview.renderNode [] n path = Return (serialize n).
Proof.
  revert path.
  assert (step : forall n,
    Forall (fun c => forall p, text_has_value c = true ->
              Preview.renderNode [] c p = Return (serialize c))
      (childNodes_or_empty n) ->
    forall path, text_has_value n = true ->
      Preview.renderNode [] n path = Return (serialize n)).
  { clear n. intros n Hc path Hwf. rewrite renderNode_eq, textual_lookup_empty.
    rewrite (renderChildren_serialize _ path _ 0 Hc
               (text_has_value_children n Hwf)).
    destruct n as [c|c|dn|dc|v|t a c]; simpl; rewrite ?serialize_children;
      try reflexivity.
    simpl in Hwf. destruct (str_eqb t (js "#text")); [discriminate|].
    now destruct (str_eqb t (js "#document")
                  || str_eqb t (js "#document-fragment")). }
  induction n using node_forall_ind; intros; apply step; simpl; auto.
Qed.

Lemma renderNode_without_text_differences (ds : list difference)
  (n : node) (path : jsstring) :
  Forall (fun d => is_structural d = true \/ path_of d = None) ds ->
  text_has_value n = true ->
  Preview.renderNode (Preview.diffMap_of ds) n path = Return (serialize n).
Proof.
  intros H Hwf. rewrite <- (renderNode_serialize n path Hwf).
  apply renderNode_ext. intros p.
  now rewrite textual_lookup_none, textual_lookup_empty.
Qed.

(** X14.  Structural differences leave no trace in the preview: when
    [diff] reports a change whose differences are all structural, or carry
    no path, [renderDiffPreview] returns the container around the plain
    serialization of the parsed new content, text escaped, with no span
    and no marker. *)
Theorem preview_without_text_differences (parse : jsstring -> node)
  (diffChars : jsstring -> jsstring -> list part)
  (oldContent : jsvalue) (newContent : jsstring) (r : DiffResult) :
  well_formed_parser parse ->
  Combined.diff parse diffChars oldContent (VString newContent) = Return r ->
  changed r = true ->
  Forall (fun d => is_structural d = true \/ path_of d = None) (differences r) ->
  Preview.renderDiffPreview parse diffChars oldContent (VString newContent)
  = Return (Preview.wrap (serialize (parse newContent))).
Proof.
  intros Hwf Hdiff Hch Hds. unfold Preview.renderDiffPreview.
  rewrite Hdiff. simpl bind. rewrite Hch. simpl negb. cbv iota.
  now rewrite (renderNode_without_text_differences _ _ [] Hds (Hwf newContent)).
Qed.

Lemma preview_without_text_differences_witness :
  Preview.renderDiffPreview Sample.parse Sample.diffChars
    (VString (js "<div><br></div>")) (VString (js "<div>hello</div>"))
  = Return (js "<div class=" ++ dquote ++ js "diff-preview" ++ dquote
            ++ js "><html><head></head><body><div>hello</div></body></html></div>").
Proof.
  apply (preview_without_text_differences Sample.parse Sample.diffChars
           (VString (js "<div><br></div>")) (js "<div>hello</div>")
           (Result true [Changed (js "0/1/0/0") (js "br") (js "#text")])
           sample_parser_well_formed).
  - reflexivity.
  - reflexivity.
  - repeat constructor.
Defined.

(** X13.  For plain text the preview shows no change at all: when neither
    input looks like markup and the two strings differ,
    [renderDiffPreview] returns the container around the serialization of
    the parsed new text; the character diff [diff] computed is stored
    without a path and is never looked up. *)
Theorem preview_of_plain_text (parse : jsstring -> node)
  (diffChars : jsstring -> jsstring -> list part) (a b : jsstring) :
  edit_script diffChars -> well_formed_parser parse ->
  htmlRegex_test a = false -> htmlRegex_test b = false -> a <> b ->
  Preview.renderDiffPreview parse diffChars (VString a) (VString b)
  = Return (Preview.wrap (serialize (parse b))).
Proof.
  intros Hscript Hwf Ha Hb Hab. unfold Preview.renderDiffPreview.
  unfold Combined.diff. simpl ToString. rewrite Ha, Hb.
  unfold Combined.compareText. simpl.
  apply str_eqb_neq in Hab as Hneq. rewrite Hneq. simpl.
  rewrite (edit_script_reports_change diffChars a b Hscript Hab). simpl.
  rewrite (renderNode_without_text_differences _ _ []); [reflexivity| |apply Hwf].
  constructor; [now right | constructor].
Qed.

Lemma preview_of_plain_text_witness :
  edit_script Sample.diffChars /\ well_formed_parser Sample.parse
  /\ Preview.renderDiffPreview Sample.parse Sample.diffChars
       (VString (js "kitten")) (VString (js "sitting"))
     = Return (js "<div class=" ++ dquote ++ js "diff-preview" ++ dquote
               ++ js "><html><head></head><body>sitting</body></html></div>").
Proof.
  split; [exact sample_diffChars_edit_script|].
  split; [exact sample_parser_well_formed|].
  apply (preview_of_plain_text Sample.parse Sample.diffChars
           (js "kitten") (js "sitting")
           sample_diffChars_edit_script sample_parser_well_formed);
    try reflexivity.
  discriminate.
Defined.

Lemma renderChildren_throws
  (render : node -> jsstring -> completion jsstring)
  (path : jsstring) (cs : list node) (i k : nat) (c : node) :
  nth_error cs k = Some c ->
  render c (childPath path (i + k)) = Throw TypeError ->
  Preview.renderChildren render path cs i = Throw TypeError.
Proof.
  revert i k; induction cs as [|x cs IH]; intros i [|k]; simpl;
    try discriminate.
  - intros [= ->]. rewrite Nat.add_0_r. now intros ->.
  - intros Hk Hc. rewrite Nat.add_succ_r in Hc.
    rewrite (IH (S i) k Hk Hc).
    destruct (render x (childPath path i)) as [s|[]]; reflexivity.
Qed.

(** X15.  [renderNode] throws whenever, somewhere in the tree it is
    given, a node it writes as an element sits at a path under which
    [diffMap] holds a text difference: [diff.type.startsWith] is called
    on a difference that has no [type].  The paths of the differences are
    those of the normalized new content, the tree rendered is parsed from
    the content as given, so the two can disagree. *)
Theorem renderNode_throws_on_misplaced_text_difference
  (m : InsertionMap.t (option jsstring) difference)
  (doc element : node) (indices : list nat) (path : jsstring)
  (changes : list change) :
  text_has_value doc = true ->
  node_at indices doc = Some element ->
  rendered_as_element element = true ->
  textual_lookup m (path_from path indices) = Some changes ->
  Preview.renderNode m doc path = Throw TypeError.
Proof.
  revert doc path; induction indices as [|k indices IH];
    intros doc path Hwf Hat Hel Hlook.
  - injection Hat as ->. rewrite renderNode_eq.
    unfold rendered_as_element in Hel.
    apply andb_prop in Hel as [Hel H3]. apply andb_prop in Hel as [H1 H2].
    apply negb_true_iff in H1, H2, H3. rewrite H1, H2, H3. simpl.
    unfold path_from in Hlook. simpl in Hlook. now rewrite Hlook.
  - simpl in Hat.
    destruct (nth_error (childNodes_or_empty doc) k) as [c|] eqn:Ek;
      [|discriminate].
    assert (Hwc : text_has_value c = true).
    { pose proof (text_has_value_children doc Hwf) as Hall.
      rewrite forallb_forall in Hall. apply Hall.
      now apply nth_error_In in Ek. }
    assert (Hc : Preview.renderNode m c (childPath path (0 + k)) = Throw TypeError)
      by (apply IH; auto).
    pose proof (renderChildren_throws (Preview.renderNode m) path _ 0 k c Ek Hc)
      as Hcs.
    assert (Hname : str_eqb (nodeName doc) (js "#text") = false).
    { destruct doc as [cs|cs|dn|dc|v|t a cs]; try reflexivity.
      - destruct k; discriminate.
      - simpl in Hwf. simpl. now destruct (str_eqb t (js "#text")). }
    rewrite renderNode_eq, Hname, Hcs.
    destruct (_ || _); [reflexivity|].
    now destruct (textual_lookup m path).
Qed.

Lemma renderNode_throws_on_misplaced_text_difference_witness :
  Preview.renderNode
    (Preview.diffMap_of
       [TextDifference (Some (js "0/1/0/1"))
          [Change SegRemoved (js "y"); Change SegAdded (js "x")]])
    Spaced.new_tree_as_given []
  = Throw TypeError.
Proof.
  apply (renderNode_throws_on_misplaced_text_difference _
           Spaced.new_tree_as_given (Element (js "p") [] []) [0; 1; 0; 1] []
           [Change SegRemoved (js "y"); Change SegAdded (js "x")]);
    reflexivity.
Defined.

(** The same from the entry point, with parse5's trees for the three
    strings involved: the old content, the normalized new content and the
    new content as given. *)
Lemma renderDiffPreview_throws_on_spaced_markup :
  Combined.diff Spaced.parse Sample.diffChars
    (VString (js "<div><p></p>y</div>")) (VString (js "<div> <p></p>x</div>"))
  = Return (Result true
              [TextDifference (Some (js "0/1/0/1"))
                 [Change SegRemoved (js "y"); Change SegAdded (js "x")]])
  /\ Preview.renderDiffPreview Spaced.parse Sample.diffChars
       (VString (js "<div><p></p>y</div>")) (VString (js "<div> <p></p>x</div>"))
     = Throw TypeError.
Proof. split; reflexivity. Qed.

(** ** When the preview returns *)

Lemma renderChildren_returns
  (render : node -> jsstring -> completion jsstring)
  (path : jsstring) (cs : list node) (i : nat) :
  (forall k c, nth_error cs k = Some c ->
               exists s, render c (childPath path (i + k)) = Return s) ->
  exists ss, Preview.renderChildren render path cs i = Return ss.
Proof.
  revert i; induction cs as [|x cs IH]; intros i H; simpl; [eauto|].
  destruct (H 0 x eq_refl) as [s Hs]. rewrite Nat.add_0_r in Hs. rewrite Hs.
  simpl. destruct (IH (S i)) as [ss Hss].
  - intros k c Hk. specialize (H (S k) c Hk).
    now rewrite Nat.add_succ_r in H.
  - rewrite Hss. simpl. eauto.
Qed.

(** [renderNode] returns on a well-formed tree when [diffMap] holds a text
    difference only under paths of nodes named [#text]. *)
Lemma renderNode_returns (m : InsertionMap.t (option jsstring) difference)
  (doc : node) (path : jsstring) :
  text_has_value doc = true ->
  (forall indices e,
     node_at indices doc = Some e -> is_text e = false ->
     textual_lookup m (path_from path indices) = None) ->
  exists s, Preview.renderNode m doc path = Return s.
Proof.
  revert path.
  assert (step : forall doc,
    Forall (fun c => forall p,
              text_has_value c = true ->
              (forall indices e,
                 node_at indices c = Some e -> is_text e = false ->
                 textual_lookup m (path_from p indices) = None) ->
              exists s, Preview.renderNode m c p = Return s)
      (childNodes_or_empty doc) ->
    forall path,
      text_has_value doc = true ->
      (forall indices e,
         node_at indices doc = Some e -> is_text e = false ->
         textual_lookup m (path_from path indices) = None) ->
      exists s, Preview.renderNode m doc path = Return s).
  { clear doc. intros doc Hc path Hwf Hclear. rewrite renderNode_eq.
    destruct (str_eqb (nodeName doc) (js "#text")) eqn:Et.
    - destruct (textual_lookup m path); [eauto|].
      destruct (text_has_value_named doc Hwf Et) as [v ->]. simpl. eauto.
    - assert (Hcs : exists ss,
                Preview.renderChildren (Preview.renderNode m) path
                  (childNodes_or_empty doc) 0 = Return ss).
      { apply renderChildren_returns. intros k c Hk.
        rewrite Forall_forall in Hc.
        apply (Hc c (nth_error_In _ _ Hk)).
        - pose proof (text_has_value_children doc Hwf) as Hall.
          rewrite forallb_forall in Hall. apply Hall.
          now apply nth_error_In in Hk.
        - intros indices e Hat He.
          apply (Hclear (k :: indices) e); [|exact He].
          simpl. now rewrite Hk. }
      destruct Hcs as [ss ->]. simpl.
      destruct (_ || _); [eauto|].
      pose proof (Hclear [] doc eq_refl Et) as H0.
      change (path_from path []) with path in H0.
      rewrite H0. simpl. eauto. }
  induction doc using node_forall_ind; intros; apply step; simpl; auto.
Qed.

(** X16.  [renderDiffPreview] returns whenever [diff] does and the new
    content is already in normal form, so that the tree it renders is the
    tree that was compared: every text difference then lies under the path
    of a text node of that tree (the parser building well-formed trees). *)
Theorem renderDiffPreview_returns_on_normalized_content
  (parse : jsstring -> node)
  (diffChars : jsstring -> jsstring -> list part)
  (oldContent : jsvalue) (newContent : jsstring) (r : DiffResult) :
  well_formed_parser parse ->
  Combined.normalizeHtml (VString newContent) = Return newContent ->
  Combined.diff parse diffChars oldContent (VString newContent) = Return r ->
  exists preview,
    Preview.renderDiffPreview parse diffChars oldContent (VString newContent)
    = Return preview.
Proof.
  intros Hwf Hnorm Hdiff. unfold Preview.renderDiffPreview.
  rewrite Hdiff. simpl bind.
  destruct (changed r) eqn:Hch; simpl; [|eauto].
  assert (Hret : exists s,
            Preview.renderNode (Preview.diffMap_of (differences r))
              (parse newContent) [] = Return s).
  { apply renderNode_returns; [apply Hwf|].
    intros indices e Hat He.
    unfold textual_lookup.
    destruct (InsertionMap.get _ _ _) as [[]|] eqn:E; try reflexivity.
    exfalso. apply diffMap_lookup_in in E as [Hin Hp]. simpl in Hp.
    revert Hdiff Hin. unfold Combined.diff.
    destruct (_ || _).
    - unfold Combined.compareHTML.
      destruct (Combined.normalizeHtml oldContent) as [a|]; simpl;
        [|discriminate].
      simpl in Hnorm. injection Hnorm as Hnorm. rewrite Hnorm.
      destruct (str_eqb a newContent); [intros [= <-] []|].
      destruct (Combined.compareNodes_present diffChars (parse a)
                  (parse newContent) [] []) as [ds|] eqn:Ec;
        simpl; [|discriminate].
      intros [= <-] Hin. simpl in Hin.
      destruct (compareNodes_present_sound diffChars _ _ _ _ _ Ec Hin)
        as (js & Hq & x & y & _ & Hn & _).
      simpl in Hq. rewrite Hp in Hq. injection Hq as Hq.
      apply path_from_inj in Hq. subst js.
      rewrite Hat in Hn. injection Hn as ->. discriminate.
    - unfold Combined.compareText.
      destruct (strict_eq oldContent (VString newContent));
        [intros [= <-] []|].
      destruct (Combined.diffChars_call _ _ _); simpl; [|discriminate].
      intros [= <-] [[= <- _]|[]]. discriminate. }
  destruct Hret as [s ->]. simpl. eauto.
Qed.

Lemma renderDiffPreview_returns_on_normalized_content_witness :
  well_formed_parser Sample.parse
  /\ Combined.normalizeHtml (VString (js "<p>b</p>")) = Return (js "<p>b</p>")
  /\ exists preview,
       Preview.renderDiffPreview Sample.parse Sample.diffChars
         (VString (js "<p>a</p>")) (VString (js "<p>b</p>"))
       = Return preview.
Proof.
  split; [exact sample_parser_well_formed|]. split; [reflexivity|].
  apply (renderDiffPreview_returns_on_normalized_content
           Sample.parse Sample.diffChars (VString (js "<p>a</p>"))
           (js "<p>b</p>")
           (Result true
              [TextDifference (Some (js "0/1/0/0"))
                 [Change SegRemoved (js "a"); Change SegAdded (js "b")]])
           sample_parser_well_formed);
    reflexivity.
Defined.

Lemma diff_changed_symmetric_when_aligned_witness :
  edit_script Sample.diffChars /\ well_formed_parser Sample.parse
  /\ aligned (Sample.parse (trim (replace_gt_spaces_lt 0 (js "<p>a</p>"))))
             (Sample.parse (trim (replace_gt_spaces_lt 0 (js "<p>b</p>")))) = true
  /\ changed (Result true
                [TextDifference (Some (js "0/1/0/0"))
                   [Change SegRemoved (js "a"); Change SegAdded (js "b")]])
     = changed (Result true
                  [TextDifference (Some (js "0/1/0/0"))
                     [Change SegRemoved (js "b"); Change SegAdded (js "a")]])
  /\ htmlRegex_test (js "a < b") || htmlRegex_test (js "a > b") = false
  /\ changed (Result true
                [TextDifference None
                   [Change SegRemoved (js "a < b"); Change SegAdded (js "a > b")]])
     = changed (Result true
                  [TextDifference None
                     [Change SegRemoved (js "a > b"); Change SegAdded (js "a < b")]]).
Proof.
  split; [exact sample_diffChars_edit_script|].
  split; [exact sample_parser_well_formed|].
  split; [reflexivity|].
  split; [|split; [reflexivity|]].
  - apply (diff_changed_symmetric_when_aligned Sample.parse Sample.diffChars
             (js "<p>a</p>") (js "<p>b</p>") _ _
             sample_diffChars_edit_script sample_parser_well_formed);
      reflexivity.
  - apply (diff_changed_symmetric_when_aligned Sample.parse Sample.diffChars
             (js "a < b") (js "a > b") _ _
             sample_diffChars_edit_script sample_parser_well_formed);
      [discriminate | reflexivity | reflexivity].
Defined.
